(** * Filter compiler of the Postgres helpers (pg-helpers)

    A shallow embedding of [translateFilter] and of the functions it calls
    ([translateCondition], [translateNewDSL], [translateLegacyFilter],
    [toSnakeCase], [toAllowedColumn]), followed by the properties of the
    filter compiler: what it rejects, the shape of the SQL fragment it
    emits, and that no value of the filter reaches the SQL text.

    The filter arrives as a parsed JSON object (the route schema only asks
    for [type: "object"]), and the TypeScript types are erased when the code
    runs, so the embedding works on JavaScript values and spells out what
    each property read, comparison and loop does on them. Strings are byte
    strings (the code only looks at ASCII letters, digits and [_]), a
    parameter index is a natural number, and an exception keeps its class
    and the place that throws it, not its message. *)

From Stdlib Require Import Floats Ascii String.
From stdpp Require Import base strings gmap list pretty.

(** ** JavaScript values *)

Unset Elimination Schemes.
Inductive jsval : Type :=
| JUndefined
| JNull
| JBool (b : bool)
| JNum (x : float)
| JStr (s : string)
| JArr (elems : list jsval)
| JObj (props : list (string * jsval)).
Set Elimination Schemes.

(** An object is the list of its own properties in [Object.entries] order. *)
Abbreviation object := (list (string * jsval)).

(** ** Exceptions *)

(** The [throw] sites of [FilterValidationError], one tag per message
    template; the message text itself is not kept. *)
Inductive FilterValidationReason :=
| UnknownField
| WrongAlias
| OperatorNotAllowed
| ValuesRequired
| RangeRequired
| UnknownOperator
| InvalidCombine
| MixedFormat.

Inductive exn :=
| FilterValidationError (why : FilterValidationReason)
| UnsupportedFilterKey   (* the plain [Error] of [toAllowedColumn] *)
| TypeError.             (* raised by the runtime, not by a [throw] *)

(** [readonly statusCode = 400] is a field of [FilterValidationError] only. *)
Definition statusCode (e : exn) : option N :=
  match e with
  | FilterValidationError _ => Some 400%N
  | _ => None
  end.

Inductive result (A : Type) :=
| Ok (a : A)
| Throw (e : exn).
Arguments Ok {A} a.
Arguments Throw {A} e.

Definition bind {A B} (r : result A) (k : A -> result B) : result B :=
  match r with
  | Ok a => k a
  | Throw e => Throw e
  end.

Notation "'do' x <- r ; k" := (bind r (fun x => k))
  (at level 10, x pattern, r at level 100, k at level 200).

(** ** Property reads, comparisons, iteration *)

Definition lookup_prop (k : string) (props : object) : jsval :=
  match find (fun p => String.eqb (fst p) k) props with
  | Some p => snd p
  | None => JUndefined
  end.

(** [o.k] for a value [o] that is neither [null] nor [undefined]. A property
    the value does not own reads as [undefined]: none of the names read in
    this module is inherited by a parsed JSON value at a place the code
    reaches ([values] of an array and [match] of a string are only read
    after a test that such a value fails). *)
Definition prop (o : jsval) (k : string) : jsval :=
  match o with
  | JObj props => lookup_prop k props
  | _ => JUndefined
  end.

Definition nullish (v : jsval) : bool :=
  match v with
  | JUndefined | JNull => true
  | _ => false
  end.

Definition is_undefined (v : jsval) : bool :=
  match v with
  | JUndefined => true
  | _ => false
  end.

(** [v === s] for a string [s]. *)
Definition is_string (v : jsval) (s : string) : bool :=
  match v with
  | JStr s' => String.eqb s' s
  | _ => false
  end.

(** [!!v] *)
Definition truthy (v : jsval) : bool :=
  match v with
  | JUndefined | JNull => false
  | JBool b => b
  | JNum x => negb (PrimFloat.eqb x 0 || PrimFloat.is_nan x)
  | JStr s => negb (String.eqb s "")
  | JArr _ | JObj _ => true
  end.

(** The values a [for (const x of v)] loop visits. A string yields one
    one-character string per character; anything but an array or a string
    is not iterable. *)
Definition iterate (v : jsval) : result (list jsval) :=
  match v with
  | JArr elems => Ok elems
  | JStr s => Ok (map (fun c => JStr (String c "")) (String.list_ascii_of_string s))
  | _ => Throw TypeError
  end.

(** [`$${i}`] *)
Definition placeholder (i : N) : string := "$" +:+ pretty i.

(** [Array.prototype.join] *)
Definition join (sep : string) (parts : list string) : string :=
  String.concat sep parts.

(** ** FIELD_DEFS: the two-tier allow-list *)

Record FieldDef := {
  tableAlias : string;
  column : string;
  allowedOps : gset string
}.

Definition TEXT_OPS : gset string :=
  list_to_set ["eq"; "ne"; "in"; "notIn"; "isNull"; "isNotNull"].

Definition TEMPORAL_OPS : gset string :=
  list_to_set ["eq"; "ne"; "gt"; "gte"; "lt"; "lte";
               "between"; "notBetween"; "in"; "notIn"; "isNull"; "isNotNull"].

Definition FIELD_DEFS : gmap string FieldDef := list_to_map [
  ("chunkIndex",       {| tableAlias := "c"; column := "chunk_index";       allowedOps := TEMPORAL_OPS |});
  ("docType",          {| tableAlias := "c"; column := "doc_type";          allowedOps := TEXT_OPS |});
  ("repoId",           {| tableAlias := "c"; column := "repo_id";           allowedOps := TEXT_OPS |});
  ("repoUrl",          {| tableAlias := "c"; column := "repo_url";          allowedOps := TEXT_OPS |});
  ("path",             {| tableAlias := "c"; column := "path";              allowedOps := TEXT_OPS |});
  ("lang",             {| tableAlias := "c"; column := "lang";              allowedOps := TEXT_OPS |});
  ("itemUrl",          {| tableAlias := "c"; column := "item_url";          allowedOps := TEXT_OPS |});
  ("enrichmentStatus", {| tableAlias := "c"; column := "enrichment_status"; allowedOps := TEXT_OPS |});
  ("createdAt",        {| tableAlias := "c"; column := "created_at";        allowedOps := TEMPORAL_OPS |});
  ("ingestedAt",       {| tableAlias := "d"; column := "ingested_at";       allowedOps := TEMPORAL_OPS |});
  ("updatedAt",        {| tableAlias := "d"; column := "updated_at";        allowedOps := TEMPORAL_OPS |});
  ("lastSeen",         {| tableAlias := "d"; column := "last_seen";         allowedOps := TEMPORAL_OPS |});
  ("mimeType",         {| tableAlias := "d"; column := "mime_type";         allowedOps := TEXT_OPS |})
].

(** [FIELD_DEFS.get(v)]: the keys are strings, so only a string finds one. *)
Definition FIELD_DEFS_get (v : jsval) : option FieldDef :=
  match v with
  | JStr name => FIELD_DEFS !! name
  | _ => None
  end.

(** [ops.has(v)] *)
Definition ops_has (ops : gset string) (v : jsval) : bool :=
  match v with
  | JStr op => bool_decide (op ∈ ops)
  | _ => false
  end.

(** ** New DSL translation *)

Record Translated := {
  sql : string;
  params : list jsval;
  nextIndex : N
}.

(** The [case] labels of the [switch (cond.op)]. *)
Inductive Operator :=
| OpEq | OpNe | OpGt | OpGte | OpLt | OpLte
| OpIn | OpNotIn | OpBetween | OpNotBetween | OpIsNull | OpIsNotNull.

Definition operator_cases : list (string * Operator) :=
  [("eq", OpEq); ("ne", OpNe); ("gt", OpGt); ("gte", OpGte); ("lt", OpLt);
   ("lte", OpLte); ("in", OpIn); ("notIn", OpNotIn); ("between", OpBetween);
   ("notBetween", OpNotBetween); ("isNull", OpIsNull); ("isNotNull", OpIsNotNull)].

(** The label the [switch] selects; [None] is the [default] branch. *)
Definition switch_op (v : jsval) : option Operator :=
  match v with
  | JStr op => snd <$> find (fun c => String.eqb (fst c) op) operator_cases
  | _ => None
  end.

(** [`${col} <op> $${paramIndex}`] with [params: [cond.value]]. *)
Definition compare1 (col op : string) (cond : jsval) (paramIndex : N)
  : result Translated :=
  Ok {| sql := col +:+ op +:+ placeholder paramIndex;
        params := [prop cond "value"];
        nextIndex := paramIndex + 1 |}.

(** The [in] / [notIn] cases, behind their guard
    [!Array.isArray(cond.values) || cond.values.length === 0]. *)
Definition membership (col op : string) (cond : jsval) (paramIndex : N)
  : result Translated :=
  match prop cond "values" with
  | JArr values =>
      if (length values =? 0)%nat
      then Throw (FilterValidationError ValuesRequired)
      else
        let placeholders :=
          join ", " (imap (fun i _ => placeholder (paramIndex + N.of_nat i)) values) in
        Ok {| sql := col +:+ op +:+ "(" +:+ placeholders +:+ ")";
              params := values;
              nextIndex := paramIndex + N.of_nat (length values) |}
  | _ => Throw (FilterValidationError ValuesRequired)
  end.

(** The guard of the [between] / [notBetween] cases:
    [!cond.range || cond.range.low === undefined || cond.range.high === undefined]. *)
Definition range_missing (cond : jsval) : bool :=
  let range := prop cond "range" in
  negb (truthy range)
  || is_undefined (prop range "low")
  || is_undefined (prop range "high").

Definition translateCondition (cond : jsval) (paramIndex : N)
  : result Translated :=
  if nullish cond then Throw TypeError else
  match FIELD_DEFS_get (prop cond "field") with
  | None => Throw (FilterValidationError UnknownField)
  | Some fieldDef =>
    let expectedAlias := tableAlias fieldDef in
    if negb (is_undefined (prop cond "alias"))
       && negb (is_string (prop cond "alias") expectedAlias)
    then Throw (FilterValidationError WrongAlias)
    else if negb (ops_has (allowedOps fieldDef) (prop cond "op"))
    then Throw (FilterValidationError OperatorNotAllowed)
    else
      let col := expectedAlias +:+ "." +:+ column fieldDef in
      let isPath := String.eqb (column fieldDef) "path" in
      match switch_op (prop cond "op") with
      | Some OpEq =>
          if isPath
          then Ok {| sql := col +:+ " LIKE " +:+ placeholder paramIndex +:+ " || '%'";
                     params := [prop cond "value"];
                     nextIndex := paramIndex + 1 |}
          else compare1 col " = " cond paramIndex
      | Some OpNe =>
          if isPath
          then Ok {| sql := col +:+ " NOT LIKE " +:+ placeholder paramIndex +:+ " || '%'";
                     params := [prop cond "value"];
                     nextIndex := paramIndex + 1 |}
          else compare1 col " != " cond paramIndex
      | Some OpGt => compare1 col " > " cond paramIndex
      | Some OpGte => compare1 col " >= " cond paramIndex
      | Some OpLt => compare1 col " < " cond paramIndex
      | Some OpLte => compare1 col " <= " cond paramIndex
      | Some OpIn => membership col " IN " cond paramIndex
      | Some OpNotIn => membership col " NOT IN " cond paramIndex
      | Some OpBetween =>
          if range_missing cond
          then Throw (FilterValidationError RangeRequired)
          else Ok {| sql := col +:+ " >= " +:+ placeholder paramIndex +:+ " AND "
                            +:+ col +:+ " <= " +:+ placeholder (paramIndex + 1);
                     params := [prop (prop cond "range") "low";
                                prop (prop cond "range") "high"];
                     nextIndex := paramIndex + 2 |}
      | Some OpNotBetween =>
          if range_missing cond
          then Throw (FilterValidationError RangeRequired)
          else Ok {| sql := "(" +:+ col +:+ " < " +:+ placeholder paramIndex +:+ " OR "
                            +:+ col +:+ " > " +:+ placeholder (paramIndex + 1) +:+ ")";
                     params := [prop (prop cond "range") "low";
                                prop (prop cond "range") "high"];
                     nextIndex := paramIndex + 2 |}
      | Some OpIsNull =>
          Ok {| sql := col +:+ " IS NULL"; params := []; nextIndex := paramIndex |}
      | Some OpIsNotNull =>
          Ok {| sql := col +:+ " IS NOT NULL"; params := []; nextIndex := paramIndex |}
      | None => Throw (FilterValidationError UnknownOperator)
      end
  end.

(** [String.prototype.toUpperCase] on the ASCII letters. *)
Definition upper_ascii (c : ascii) : ascii :=
  let n := Ascii.nat_of_ascii c in
  if (97 <=? n)%nat && (n <=? 122)%nat then Ascii.ascii_of_nat (n - 32) else c.

Fixpoint toUpperCase (s : string) : string :=
  match s with
  | EmptyString => EmptyString
  | String c rest => String (upper_ascii c) (toUpperCase rest)
  end.

(** The [for (const cond of dsl.conditions)] loop, with the three variables
    it updates. *)
Fixpoint translateNewDSL_loop (conds : list jsval) (sqlFragments : list string)
    (params : list jsval) (paramIndex : N)
  : result (list string * list jsval) :=
  match conds with
  | [] => Ok (sqlFragments, params)
  | cond :: rest =>
      do result <- translateCondition cond paramIndex;
      let '{| sql := result_sql; params := result_params;
              nextIndex := result_nextIndex |} := result in
      translateNewDSL_loop rest
        (sqlFragments ++ [result_sql])
        (params ++ result_params)
        result_nextIndex
  end.

(** [dsl.combine ?? "and"], checked and upper-cased. *)
Definition combine_keyword (dsl : object) : result string :=
  let rawCombine :=
    if nullish (lookup_prop "combine" dsl) then JStr "and"
    else lookup_prop "combine" dsl in
  if negb (is_string rawCombine "and") && negb (is_string rawCombine "or")
  then Throw (FilterValidationError InvalidCombine)
  else match rawCombine with
       | JStr c => Ok (toUpperCase c)
       | _ => Throw TypeError
       end.

(** [sqlFragments.length === 1 ? sqlFragments[0] : `(${sqlFragments.join(...)})`] *)
Definition joined (combine : string) (sqlFragments : list string) : string :=
  match sqlFragments with
  | [only] => only
  | _ => "(" +:+ join (" " +:+ combine +:+ " ") sqlFragments +:+ ")"
  end.

Definition translateNewDSL (dsl : object) (paramIndexOffset : N)
  : result (string * list jsval) :=
  do combine <- combine_keyword dsl;
  do conds <- iterate (lookup_prop "conditions" dsl);
  do (sqlFragments, params) <-
    translateNewDSL_loop conds [] [] (1 + paramIndexOffset);
  if (length sqlFragments =? 0)%nat
  then Ok ("", [])
  else Ok (" AND " +:+ joined combine sqlFragments, params).

(** ** Legacy filter translation *)

Definition is_upper (c : ascii) : bool :=
  let n := Ascii.nat_of_ascii c in (65 <=? n)%nat && (n <=? 90)%nat.

Definition lower_ascii (c : ascii) : ascii :=
  if is_upper c then Ascii.ascii_of_nat (Ascii.nat_of_ascii c + 32) else c.

(** The [replace(/([A-Z])/g, ...)] of [toSnakeCase], from position [offset]. *)
Fixpoint snake_from (offset : nat) (str : string) : string :=
  match str with
  | EmptyString => EmptyString
  | String c rest =>
      (if is_upper c
       then if (offset =? 0)%nat
            then String (lower_ascii c) ""
            else "_" +:+ String (lower_ascii c) ""
       else String c "")
      +:+ snake_from (S offset) rest
  end.

(** [str.replace] exists on strings only: any other value ends in a
    [TypeError]. *)
Definition toSnakeCase (str : jsval) : result string :=
  match str with
  | JStr s => Ok (snake_from 0 s)
  | _ => Throw TypeError
  end.

Definition ALLOWED_FILTER_COLUMNS : gset string :=
  list_to_set ["chunk_index"; "doc_type"; "repo_id"; "repo_url"; "path";
               "lang"; "item_url"; "enrichment_status"].

Definition is_lower_or_underscore (c : ascii) : bool :=
  let n := Ascii.nat_of_ascii c in
  ((97 <=? n)%nat && (n <=? 122)%nat) || (n =? 95)%nat.

Definition is_digit (c : ascii) : bool :=
  let n := Ascii.nat_of_ascii c in (48 <=? n)%nat && (n <=? 57)%nat.

(** [/^[a-z_][a-z0-9_]*$/.test(column)] *)
Definition column_pattern (column : string) : bool :=
  match column with
  | EmptyString => false
  | String c rest =>
      is_lower_or_underscore c
      && forallb (fun c => is_lower_or_underscore c || is_digit c)
                 (String.list_ascii_of_string rest)
  end.

Definition toAllowedColumn (key : jsval) : result string :=
  do column <- toSnakeCase key;
  if negb (column_pattern column)
     || negb (bool_decide (column ∈ ALLOWED_FILTER_COLUMNS))
  then Throw UnsupportedFilterKey
  else Ok column.

(** The condition text the three branches of the legacy loop push; the
    [must_not] branch is the [negated] one. *)
Definition legacy_condition (tableAlias column : string) (negated : bool)
    (paramIndex : N) : string :=
  let col := tableAlias +:+ "." +:+ column in
  if String.eqb column "path"
  then col +:+ (if negated then " NOT LIKE " else " LIKE ")
       +:+ placeholder paramIndex +:+ " || '%'"
  else col +:+ (if negated then " != " else " = ")
       +:+ placeholder paramIndex.

(** The loop variables [conditions], [params], [paramIndex]. *)
Abbreviation legacy_state := (list string * list jsval * N)%type.

(** The inner loops over [mustConds] and [mustNotConds]. *)
Fixpoint translateLegacy_matches (tableAlias : string) (negated : bool)
    (conds : list jsval) (st : legacy_state) : result legacy_state :=
  match conds with
  | [] => Ok st
  | cond :: rest =>
      let '(conditions, params, paramIndex) := st in
      if nullish cond then Throw TypeError else
      do column <- toAllowedColumn (prop cond "key");
      if nullish (prop cond "match") then Throw TypeError else
      let filterValue :=
        if nullish (prop (prop cond "match") "value")
        then prop (prop cond "match") "text"
        else prop (prop cond "match") "value" in
      translateLegacy_matches tableAlias negated rest
        (conditions ++ [legacy_condition tableAlias column negated paramIndex],
         params ++ [filterValue],
         (paramIndex + 1)%N)
  end.

(** The loop over [Object.entries(filter)]. *)
Fixpoint translateLegacy_entries (tableAlias : string) (entries : object)
    (st : legacy_state) : result legacy_state :=
  match entries with
  | [] => Ok st
  | (key, value) :: rest =>
      do st' <-
        (if String.eqb key "must" then
           do mustConds <- iterate value;
           translateLegacy_matches tableAlias false mustConds st
         else if String.eqb key "must_not" then
           do mustNotConds <- iterate value;
           translateLegacy_matches tableAlias true mustNotConds st
         else
           let '(conditions, params, paramIndex) := st in
           do column <- toAllowedColumn (JStr key);
           Ok (conditions ++ [legacy_condition tableAlias column false paramIndex],
               params ++ [value],
               (paramIndex + 1)%N));
      translateLegacy_entries tableAlias rest st'
  end.

Definition translateLegacyFilter (filter : object) (paramIndexOffset : N)
    (tableAlias : string) : result (string * list jsval) :=
  do (conditions, params, _) <-
    translateLegacy_entries tableAlias filter ([], [], 1 + paramIndexOffset)%N;
  Ok (if (0 <? length conditions)%nat
      then " AND " +:+ join " AND " conditions
      else "",
      params).

(** ** translateFilter *)

(** ["conditions" in filter] *)
Definition has_conditions (filter : object) : bool :=
  existsb (fun p => String.eqb (fst p) "conditions") filter.

Definition dslKeys : gset string := list_to_set ["conditions"; "combine"].

(** [Object.keys(filter).filter((k) => !dslKeys.has(k))] *)
Definition extraKeys (filter : object) : list string :=
  List.filter (fun k => negb (bool_decide (k ∈ dslKeys))) (map fst filter).

(** [filter] is [None] for [undefined]; the defaults of the two other
    arguments are [0] and ["c"]. *)
Definition translateFilter (filter : option object) (paramIndexOffset : N)
    (tableAlias : string) : result (string * list jsval) :=
  match filter with
  | None => Ok ("", [])
  | Some filter =>
      if has_conditions filter then
        if (0 <? length (extraKeys filter))%nat
        then Throw (FilterValidationError MixedFormat)
        else translateNewDSL filter paramIndexOffset
      else translateLegacyFilter filter paramIndexOffset tableAlias
  end.

(** ** What a filter carries: values and structure *)

(** The values a condition supplies for its operator, in the order they are
    bound: the list of [values] for [in] / [notIn], the two bounds for
    [between] / [notBetween], nothing for the null tests and [value] for the
    comparisons. *)
Definition condition_values (cond : jsval) : list jsval :=
  match switch_op (prop cond "op") with
  | Some (OpIn | OpNotIn) =>
      match prop cond "values" with
      | JArr values => values
      | _ => []
      end
  | Some (OpBetween | OpNotBetween) =>
      [prop (prop cond "range") "low"; prop (prop cond "range") "high"]
  | Some (OpIsNull | OpIsNotNull) => []
  | Some _ => [prop cond "value"]
  | None => []
  end.

(** The number of placeholders a condition takes. *)
Definition arity (cond : jsval) : nat := length (condition_values cond).

Definition elements (v : jsval) : list jsval :=
  match iterate v with
  | Ok elems => elems
  | Throw _ => []
  end.

(** [cond.match.value ?? cond.match.text] *)
Definition match_value (cond : jsval) : jsval :=
  if nullish (prop (prop cond "match") "value")
  then prop (prop cond "match") "text"
  else prop (prop cond "match") "value".

Definition legacy_entry_values (entry : string * jsval) : list jsval :=
  if String.eqb (fst entry) "must" || String.eqb (fst entry) "must_not"
  then map match_value (elements (snd entry))
  else [snd entry].

(** The values of a filter, in the order the filter lists them. *)
Definition filter_values (filter : object) : list jsval :=
  if has_conditions filter
  then flat_map condition_values (elements (lookup_prop "conditions" filter))
  else flat_map legacy_entry_values filter.

(** Two conditions of the DSL have the same structure when they name the
    same field and operator and carry the same number of values. *)
Definition same_condition (c1 c2 : jsval) : Prop :=
  prop c1 "field" = prop c2 "field"
  /\ prop c1 "op" = prop c2 "op"
  /\ arity c1 = arity c2.

(** Two elements of a [must] / [must_not] list have the same structure when
    they name the same key. *)
Definition same_match (c1 c2 : jsval) : Prop :=
  prop c1 "key" = prop c2 "key".

(** Two properties have the same structure when they have the same key
    and, under it, lists of conditions of the same structure
    ([conditions], [must], [must_not]) or the same combine operator
    ([combine]); under any other key the value is free. *)
Definition same_entry (e1 e2 : string * jsval) : Prop :=
  fst e1 = fst e2
  /\ (if String.eqb (fst e1) "conditions"
      then Forall2 same_condition (elements (snd e1)) (elements (snd e2))
      else if String.eqb (fst e1) "combine"
      then snd e1 = snd e2
      else if String.eqb (fst e1) "must" || String.eqb (fst e1) "must_not"
      then Forall2 same_match (elements (snd e1)) (elements (snd e2))
      else True).

Definition same_structure (f1 f2 : object) : Prop :=
  Forall2 same_entry f1 f2.

(** ** The allow-list of SQL text *)

Definition TABLE_ALIASES : list string := ["c"; "d"].

(** The physical columns of [FIELD_DEFS] and [ALLOWED_FILTER_COLUMNS]. *)
Definition COLUMNS : list string :=
  ["chunk_index"; "doc_type"; "repo_id"; "repo_url"; "path"; "lang";
   "item_url"; "enrichment_status"; "created_at"; "ingested_at";
   "updated_at"; "last_seen"; "mime_type"].

(** The operators and punctuation of the templates. *)
Definition OPERATORS : list string :=
  [" = "; " != "; " > "; " >= "; " < "; " <= "; " LIKE "; " NOT LIKE ";
   " || '%'"; " IN "; " NOT IN "; " IS NULL"; " IS NOT NULL";
   " AND "; " OR "; "("; ")"; ", "].

(** Text built only from the allow-list: a concatenation of columns
    qualified by one of [aliases], operators and positional placeholders.
    The fixed allow-list of aliases is [TABLE_ALIASES]. *)
Inductive allowlisted (aliases : list string) : string -> Prop :=
| al_empty : allowlisted aliases ""
| al_operator op :
    op ∈ OPERATORS -> allowlisted aliases op
| al_column tableAlias column :
    tableAlias ∈ aliases ->
    column ∈ COLUMNS ->
    allowlisted aliases (tableAlias +:+ "." +:+ column)
| al_placeholder i : allowlisted aliases (placeholder i)
| al_app s1 s2 :
    allowlisted aliases s1 -> allowlisted aliases s2 ->
    allowlisted aliases (s1 +:+ s2).

(** The aliases that qualify the columns of a fragment: the fixed [c] and
    [d] of [FIELD_DEFS] on the DSL path, and on the legacy path the
    [tableAlias] argument of the call, which the code puts in the text as
    it is. *)
Definition column_aliases (filter : object) (tableAlias : string) : list string :=
  if has_conditions filter then TABLE_ALIASES else [tableAlias].

(** The character [c] occurs in the text [s]. *)
Definition occurs (c : ascii) (s : string) : bool :=
  existsb (Ascii.eqb c) (String.list_ascii_of_string s).

(** Every dot of the text [s] comes right after a [c] or a [d]; [previous]
    is the character before [s]. *)
Fixpoint dots_after_c_or_d (previous : ascii) (s : string) : bool :=
  match s with
  | EmptyString => true
  | String c rest =>
      (if Ascii.eqb c "."
       then Ascii.eqb previous "c" || Ascii.eqb previous "d"
       else true)
      && dots_after_c_or_d c rest
  end.

(** ** The shape of a DSL filter and what makes the compiler reject it *)

Definition is_absent_or (shape : jsval -> bool) (v : jsval) : bool :=
  is_undefined v || shape v.

Definition is_str (v : jsval) : bool :=
  match v with JStr _ => true | _ => false end.

Definition is_arr (v : jsval) : bool :=
  match v with JArr _ => true | _ => false end.

Definition is_obj (v : jsval) : bool :=
  match v with JObj _ => true | _ => false end.

(** [interface FilterCondition]: [field] and [op] are strings; [values],
    [range] and [alias], when present, are an array, an object and a
    string; [value] is anything. *)
Definition is_FilterCondition (cond : jsval) : bool :=
  is_obj cond
  && is_str (prop cond "field")
  && is_str (prop cond "op")
  && is_absent_or is_arr (prop cond "values")
  && is_absent_or is_obj (prop cond "range")
  && is_absent_or is_str (prop cond "alias").

(** [interface FilterDSL]: [conditions] is an array of conditions and
    [combine], when present, a string. *)
Definition is_FilterDSL (filter : object) : bool :=
  match lookup_prop "conditions" filter with
  | JArr conds => forallb is_FilterCondition conds
  | _ => false
  end
  && is_absent_or is_str (lookup_prop "combine" filter).

Definition SUPPORTED_OPERATORS : list string :=
  ["eq"; "ne"; "gt"; "gte"; "lt"; "lte"; "in"; "notIn"; "between";
   "notBetween"; "isNull"; "isNotNull"].

(** The operator of the condition is one of [names]. *)
Definition op_among (names : list string) (cond : jsval) : bool :=
  existsb (is_string (prop cond "op")) names.

Definition unknown_field (cond : jsval) : bool :=
  match FIELD_DEFS_get (prop cond "field") with
  | None => true
  | Some _ => false
  end.

Definition operator_not_allowed (cond : jsval) : bool :=
  match FIELD_DEFS_get (prop cond "field") with
  | Some fieldDef => negb (ops_has (allowedOps fieldDef) (prop cond "op"))
  | None => false
  end.

Definition alias_differs (cond : jsval) : bool :=
  match FIELD_DEFS_get (prop cond "field") with
  | Some fieldDef =>
      negb (is_undefined (prop cond "alias"))
      && negb (is_string (prop cond "alias") (tableAlias fieldDef))
  | None => false
  end.

(** An [in] / [notIn] condition whose list of values is empty. *)
Definition empty_values (cond : jsval) : bool :=
  op_among ["in"; "notIn"] cond
  && match prop cond "values" with
     | JArr [] => true
     | _ => false
     end.

(** An [in] / [notIn] condition whose list of values is absent or empty. *)
Definition absent_or_empty_values (cond : jsval) : bool :=
  op_among ["in"; "notIn"] cond
  && match prop cond "values" with
     | JUndefined | JArr [] => true
     | _ => false
     end.

(** A [between] / [notBetween] condition without [range.low] or
    [range.high]. *)
Definition missing_bounds (cond : jsval) : bool :=
  op_among ["between"; "notBetween"] cond
  && (is_undefined (prop (prop cond "range") "low")
      || is_undefined (prop (prop cond "range") "high")).

Definition unknown_operator (cond : jsval) : bool :=
  negb (op_among SUPPORTED_OPERATORS cond).

(** A [combine] value other than ["and"] and ["or"]. *)
Definition invalid_combine (filter : object) : bool :=
  negb (is_undefined (lookup_prop "combine" filter))
  && negb (is_string (lookup_prop "combine" filter) "and")
  && negb (is_string (lookup_prop "combine" filter) "or").

(** The [conditions] key next to a key of the legacy format. *)
Definition mixes_legacy_key (filter : object) : bool :=
  has_conditions filter
  && existsb (fun k => negb (String.eqb k "conditions")
                       && negb (String.eqb k "combine"))
             (map fst filter).

(** The reasons for rejection of a condition as section 4.3 of the
    specification lists them, an empty list of values among them. *)
Definition listed_condition_fault (cond : jsval) : bool :=
  unknown_field cond || operator_not_allowed cond || alias_differs cond
  || empty_values cond || missing_bounds cond || unknown_operator cond.

Definition listed_fault (filter : object) : bool :=
  existsb listed_condition_fault (elements (lookup_prop "conditions" filter))
  || invalid_combine filter.

(** The same reasons, with an absent list of values counted next to an
    empty one. *)
Definition condition_fault (cond : jsval) : bool :=
  unknown_field cond || operator_not_allowed cond || alias_differs cond
  || absent_or_empty_values cond || missing_bounds cond
  || unknown_operator cond.

Definition filter_fault (filter : object) : bool :=
  existsb condition_fault (elements (lookup_prop "conditions" filter))
  || invalid_combine filter.

(** ** Conditions translated one after the other *)

(** [translated_from i conds ts]: the conditions [conds] translate to [ts]
    when the first is given the index [i] and each next one the index the
    previous one returns, which is its own index plus its arity. *)
Inductive translated_from : N -> list jsval -> list Translated -> Prop :=
| translated_nil i : translated_from i [] []
| translated_cons i cond conds t ts :
    translateCondition cond i = Ok t ->
    length t.(params) = arity cond ->
    t.(nextIndex) = (i + N.of_nat (arity cond))%N ->
    translated_from t.(nextIndex) conds ts ->
    translated_from i (cond :: conds) (t :: ts).

(** ** Filters used as examples *)

(** [{conditions: [{field: "docType", op: "eq", value: "code"},
                   {field: "lang", op: "eq", value: "ts"}], combine: "or"}] *)
Definition example_or_filter : object :=
  [("conditions",
    JArr [JObj [("field", JStr "docType"); ("op", JStr "eq"); ("value", JStr "code")];
          JObj [("field", JStr "lang"); ("op", JStr "eq"); ("value", JStr "ts")]]);
   ("combine", JStr "or")].

(** [{field: "path", op: "eq", value: "src/"}] *)
Definition example_path_condition : jsval :=
  JObj [("field", JStr "path"); ("op", JStr "eq"); ("value", JStr "src/")].

(** [{conditions: [{field: "lang", op: "in"}]}]: an [in] without [values]. *)
Definition absent_values_filter : object :=
  [("conditions", JArr [JObj [("field", JStr "lang"); ("op", JStr "in")]])].

(** [{conditions: [{field: "ingestedAt", op: "gte", value: "2025-01-01",
                    alias: "c"}]}]: a document field under the chunk alias. *)
Definition wrong_alias_filter : object :=
  [("conditions",
    JArr [JObj [("field", JStr "ingestedAt"); ("op", JStr "gte");
                ("value", JStr "2025-01-01"); ("alias", JStr "c")]])].

(** [{conditions: [{field: "docType", op: "eq", value: "code"}],
      docType: "code"}]: the DSL next to a legacy key. *)
Definition mixed_filter : object :=
  [("conditions",
    JArr [JObj [("field", JStr "docType"); ("op", JStr "eq"); ("value", JStr "code")]]);
   ("docType", JStr "code")].

(** Two DSL filters of one structure; the second carries SQL text as values. *)
Definition plain_dsl_filter : object :=
  [("conditions",
    JArr [JObj [("field", JStr "path"); ("op", JStr "eq"); ("value", JStr "src/")];
          JObj [("field", JStr "lang"); ("op", JStr "in");
                ("values", JArr [JStr "ts"; JStr "js"])]]);
   ("combine", JStr "or")].

Definition hostile_dsl_filter : object :=
  [("conditions",
    JArr [JObj [("field", JStr "path"); ("op", JStr "eq");
                ("value", JStr "' OR 1=1 --")];
          JObj [("field", JStr "lang"); ("op", JStr "in");
                ("values", JArr [JStr "x'); DROP TABLE chunks; --"; JNull])]]);
   ("combine", JStr "or")].

(** Two legacy filters of one structure. *)
Definition plain_legacy_filter : object :=
  [("docType", JStr "code");
   ("must_not", JArr [JObj [("key", JStr "path");
                            ("match", JObj [("text", JStr "src/")])]])].

Definition hostile_legacy_filter : object :=
  [("docType", JStr "'; DROP TABLE chunks; --");
   ("must_not", JArr [JObj [("key", JStr "path");
                            ("match", JObj [("value", JStr "%' OR ''='")])]])].

(** ** Further notions used by the properties *)

(** No ASCII capital letter occurs in the text. *)
Definition no_upper (s : string) : bool :=
  forallb (fun c => negb (is_upper c)) (String.list_ascii_of_string s).

(** The text starts with an underscore. *)
Definition leading_underscore (s : string) : bool :=
  match s with
  | String c _ => Ascii.eqb c "_"
  | EmptyString => false
  end.

(** A legacy filter of plain [key: value] properties: no [must], no
    [must_not], and no [conditions]. *)
Definition plain_keys (filter : object) : bool :=
  forallb (fun k => negb (String.eqb k "must") && negb (String.eqb k "must_not")
                    && negb (String.eqb k "conditions"))
          (map fst filter).

(** [conditions.length > 0 ? ` AND ${conditions.join(" AND ")}` : ""] *)
Definition and_conditions (conditions : list string) : string :=
  if (0 <? length conditions)%nat
  then " AND " +:+ join " AND " conditions
  else "".

(** Two outcomes agree when both are results with the same parameters or
    both are the same exception. *)
Definition same_outcome (r1 r2 : result (string * list jsval)) : Prop :=
  match r1, r2 with
  | Ok (_, ps1), Ok (_, ps2) => ps1 = ps2
  | Throw e1, Throw e2 => e1 = e2
  | _, _ => False
  end.

(** [{conditions: [{field, op, value}]}] *)
Definition dsl_of_condition (field op : string) (value : jsval) : object :=
  [("conditions",
    JArr [JObj [("field", JStr field); ("op", JStr op); ("value", value)]])].

(** [{must: [{key, match: {value}}]}] and [{must_not: [...]}] *)
Definition legacy_match (kind key : string) (value : jsval) : object :=
  [(kind, JArr [JObj [("key", JStr key); ("match", JObj [("value", value)])]])].

(** The condition of the legacy path for a column and a flag that says
    whether it is negated, at the index [i]. *)
Definition legacy_condition_at (tableAlias : string) (first : N) (n : nat)
    (spec : string * bool) : string :=
  legacy_condition tableAlias (fst spec) (snd spec) (first + N.of_nat n).


(** * Properties *)

(** ** The field table *)

Lemma FIELD_DEFS_allowlist name fieldDef :
  FIELD_DEFS !! name = Some fieldDef ->
  fieldDef.(tableAlias) ∈ TABLE_ALIASES /\ fieldDef.(column) ∈ COLUMNS.
Proof.
  revert name fieldDef.
  change (map_Forall
            (fun _ fd => fd.(tableAlias) ∈ TABLE_ALIASES /\ fd.(column) ∈ COLUMNS)
            FIELD_DEFS).
  apply (bool_decide_unpack _). vm_compute. exact I.
Qed.

(** ** One condition *)

(** Unfolds a successful [translateCondition] into the case that produced
    the result. *)
Ltac translated_cases H :=
  unfold translateCondition in H;
  destruct (nullish _) eqn:Hnullish; [discriminate H|];
  destruct (FIELD_DEFS_get _) as [fieldDef|] eqn:Hfield; [|discriminate H];
  destruct (negb (is_undefined _) && _) eqn:Halias; [discriminate H|];
  destruct (negb (ops_has _ _)) eqn:Hallowed; [discriminate H|];
  destruct (switch_op _) as [[]|] eqn:Hop; [..|discriminate H];
  unfold compare1, membership in H;
  repeat match type of H with
         | (if ?b then _ else _) = _ => destruct b eqn:?
         | match ?v with _ => _ end = _ => destruct v eqn:?
         | Throw _ = Ok _ => discriminate H
         end;
  injection H as <-.

Lemma translateCondition_values cond i t :
  translateCondition cond i = Ok t ->
  t.(params) = condition_values cond
  /\ t.(nextIndex) = (i + N.of_nat (arity cond))%N.
Proof.
  intros H. unfold arity, condition_values.
  translated_cases H; cbn [params nextIndex];
    repeat match goal with
           | Hvalues : prop _ "values" = _ |- _ => rewrite Hvalues; clear Hvalues
           end;
    cbn [length]; split; try reflexivity; lia.
Qed.

Lemma imap_placeholders {A} (f : nat -> string) (l1 l2 : list A) :
  length l1 = length l2 ->
  imap (fun i _ => f i) l1 = imap (fun i _ => f i) l2.
Proof.
  revert f l2. induction l1 as [|x l1 IH]; intros f [|y l2] Hlen;
    try discriminate Hlen; [reflexivity|].
  cbn. f_equal. apply (IH (f ∘ S)). by injection Hlen.
Qed.

Lemma translateCondition_same cond1 cond2 i t1 t2 :
  same_condition cond1 cond2 ->
  translateCondition cond1 i = Ok t1 ->
  translateCondition cond2 i = Ok t2 ->
  t1.(sql) = t2.(sql).
Proof.
  intros (Hfield & Hop & Harity) H1 H2.
  unfold arity, condition_values in Harity.
  unfold translateCondition in H1, H2. rewrite <- Hfield, <- Hop in *.
  revert H1 H2 Harity.
  destruct (nullish cond1); [discriminate|].
  destruct (nullish cond2); [discriminate|].
  destruct (FIELD_DEFS_get _) as [fieldDef|]; [|discriminate].
  destruct (negb (is_undefined (prop cond1 "alias")) && _); [discriminate|].
  destruct (negb (is_undefined (prop cond2 "alias")) && _); [discriminate|].
  destruct (negb (ops_has _ _)); [discriminate|].
  destruct (switch_op _) as [[]|]; [..|discriminate];
    unfold compare1, membership, range_missing.
  all: repeat (case_match; try discriminate).
  all: intros [= <-] [= <-] Hlen; cbn [sql]; try reflexivity.
  all: by rewrite (imap_placeholders _ _ _ Hlen).
Qed.

Ltac allowlist :=
  repeat first
    [ apply al_empty
    | apply al_placeholder
    | apply al_operator; solve [repeat constructor]
    | apply al_column;
      [first [assumption | apply list_elem_of_here] | assumption]
    | apply al_app ].

Lemma join_allowlisted aliases sep parts :
  allowlisted aliases sep ->
  Forall (allowlisted aliases) parts ->
  allowlisted aliases (join sep parts).
Proof.
  intros Hsep Hparts. induction Hparts as [|part parts Hpart Hparts IH].
  - apply al_empty.
  - cbn. destruct parts as [|part' parts]; [exact Hpart|].
    apply al_app; [exact Hpart|]. apply al_app; [exact Hsep|]. exact IH.
Qed.

Lemma placeholders_allowlisted {A} aliases (f : nat -> N) (l : list A) :
  Forall (allowlisted aliases) (imap (fun i _ => placeholder (f i)) l).
Proof.
  revert f. induction l as [|x l IH]; intros f; cbn; constructor.
  - apply al_placeholder.
  - apply (IH (f ∘ S)).
Qed.

Lemma translateCondition_allowlisted cond i t :
  translateCondition cond i = Ok t ->
  allowlisted TABLE_ALIASES t.(sql).
Proof.
  intros H. translated_cases H; cbn [sql].
  all: destruct (prop cond "field") as [| | | |name| |]; try discriminate Hfield.
  all: apply FIELD_DEFS_allowlist in Hfield as [Hin_aliases Hin_columns].
  all: allowlist.
  all: apply join_allowlisted; [allowlist|].
  all: apply (placeholders_allowlisted _ (fun k => (i + N.of_nat k)%N)).
Qed.

(** ** The loop of [translateNewDSL] *)

Lemma translateNewDSL_loop_Ok conds sqlFragments ps i sqlFragments' ps' :
  translateNewDSL_loop conds sqlFragments ps i = Ok (sqlFragments', ps') ->
  exists ts,
    translated_from i conds ts
    /\ sqlFragments' = sqlFragments ++ map sql ts
    /\ ps' = ps ++ flat_map params ts.
Proof.
  revert sqlFragments ps i.
  induction conds as [|cond conds IH]; intros sqlFragments ps i H; cbn in H.
  - injection H as <- <-. exists []. split; [constructor|].
    cbn. by rewrite !app_nil_r.
  - destruct (translateCondition cond i) as [t|e] eqn:Ht; [|discriminate H].
    cbn in H. destruct t as [tsql tparams tnext].
    apply IH in H as (ts & Hts & -> & ->).
    destruct (translateCondition_values _ _ _ Ht) as [Hparams Hnext].
    exists ({| sql := tsql; params := tparams; nextIndex := tnext |} :: ts).
    split; [|by cbn; rewrite <- !app_assoc].
    econstructor; [exact Ht| |exact Hnext|exact Hts].
    unfold arity. by rewrite <- Hparams.
Qed.

Lemma translated_from_values i conds ts :
  translated_from i conds ts ->
  flat_map params ts = flat_map condition_values conds.
Proof.
  induction 1 as [|i cond conds t ts Ht _ _ _ IH]; [reflexivity|].
  cbn. rewrite IH. f_equal. by apply translateCondition_values in Ht as [-> _].
Qed.

Lemma translated_from_same i conds1 conds2 ts1 ts2 :
  Forall2 same_condition conds1 conds2 ->
  translated_from i conds1 ts1 ->
  translated_from i conds2 ts2 ->
  map sql ts1 = map sql ts2.
Proof.
  intros Hsame. revert i ts1 ts2.
  induction Hsame as [|cond1 cond2 conds1 conds2 Hcond _ IH]; intros i ts1 ts2 H1 H2.
  - by inversion H1; inversion H2.
  - inversion H1 as [|? ? ? t1 ts1' Ht1 _ Hnext1 Hrest1]; subst.
    inversion H2 as [|? ? ? t2 ts2' Ht2 _ Hnext2 Hrest2]; subst.
    cbn. f_equal.
    + exact (translateCondition_same _ _ _ _ _ Hcond Ht1 Ht2).
    + apply (IH (nextIndex t1)); [exact Hrest1|].
      destruct Hcond as (_ & _ & Harity).
      by rewrite Hnext1, Harity, <- Hnext2.
Qed.

Lemma translated_from_allowlisted i conds ts :
  translated_from i conds ts ->
  Forall (allowlisted TABLE_ALIASES) (map sql ts).
Proof.
  induction 1 as [|i cond conds t ts Ht _ _ _ IH]; cbn; constructor.
  - exact (translateCondition_allowlisted _ _ _ Ht).
  - exact IH.
Qed.

Lemma combine_keyword_Ok dsl combine :
  combine_keyword dsl = Ok combine -> combine = "AND" \/ combine = "OR".
Proof.
  unfold combine_keyword.
  destruct (nullish (lookup_prop "combine" dsl)); cbn.
  - intros [= <-]. by left.
  - destruct (lookup_prop "combine" dsl) as [| | | |c| |]; try discriminate.
    cbn. destruct (String.eqb_spec c "and") as [->|_]; cbn.
    + intros [= <-]. by left.
    + destruct (String.eqb_spec c "or") as [->|_]; cbn; [|discriminate].
      intros [= <-]. by right.
Qed.

Lemma joined_allowlisted aliases combine sqlFragments :
  combine = "AND" \/ combine = "OR" ->
  Forall (allowlisted aliases) sqlFragments ->
  allowlisted aliases (" AND " +:+ joined combine sqlFragments).
Proof.
  intros Hcombine Hfragments. apply al_app; [allowlist|].
  assert (allowlisted aliases (" " +:+ combine +:+ " ")) as Hsep
    by (destruct Hcombine as [-> | ->]; allowlist).
  unfold joined.
  destruct sqlFragments as [|only [|second rest]].
  - allowlist.
  - by inversion Hfragments.
  - apply al_app; [allowlist|]. apply al_app; [|allowlist].
    by apply join_allowlisted.
Qed.

(** ** The legacy loops *)

Lemma ALLOWED_FILTER_COLUMNS_allowlist column :
  column ∈ ALLOWED_FILTER_COLUMNS -> column ∈ COLUMNS.
Proof.
  unfold ALLOWED_FILTER_COLUMNS. rewrite elem_of_list_to_set.
  revert column. apply Forall_forall. apply (bool_decide_unpack _).
  vm_compute. exact I.
Qed.

Lemma toAllowedColumn_Ok key column :
  toAllowedColumn key = Ok column -> column ∈ COLUMNS.
Proof.
  unfold toAllowedColumn. destruct (toSnakeCase key) as [snake|]; [|discriminate].
  cbn [bind]. destruct (column_pattern snake); [|discriminate]. cbn [negb orb].
  destruct (bool_decide_reflect (snake ∈ ALLOWED_FILTER_COLUMNS)) as [Hin|];
    [|discriminate].
  cbn [negb]. intros [= <-]. by apply ALLOWED_FILTER_COLUMNS_allowlist.
Qed.

Lemma legacy_condition_allowlisted legacyAlias column negated i :
  column ∈ COLUMNS ->
  allowlisted [legacyAlias] (legacy_condition legacyAlias column negated i).
Proof.
  intros Hcolumn. unfold legacy_condition.
  destruct (String.eqb column "path"), negated; allowlist.
Qed.

Lemma translateLegacy_matches_Ok legacyAlias negated conds cs ps i cs' ps' i' :
  translateLegacy_matches legacyAlias negated conds (cs, ps, i) = Ok (cs', ps', i') ->
  exists new,
    cs' = cs ++ new
    /\ Forall (allowlisted [legacyAlias]) new
    /\ ps' = ps ++ map match_value conds.
Proof.
  revert cs ps i.
  induction conds as [|cond conds IH]; intros cs ps i H; cbn in H.
  - injection H as <- <- <-. exists []. by rewrite !app_nil_r.
  - destruct (nullish cond); [discriminate H|].
    destruct (toAllowedColumn _) as [column|] eqn:Hcolumn; [|discriminate H].
    cbn in H. destruct (nullish (prop cond "match")); [discriminate H|].
    apply IH in H as (new & -> & Hnew & ->).
    exists (legacy_condition legacyAlias column negated i :: new).
    rewrite <- !app_assoc. split; [done|]. split; [|done].
    constructor; [|exact Hnew].
    apply legacy_condition_allowlisted. by eapply toAllowedColumn_Ok.
Qed.

Lemma translateLegacy_matches_same legacyAlias negated conds1 conds2
    cs1 ps1 cs2 ps2 i cs1' ps1' i1' cs2' ps2' i2' :
  Forall2 same_match conds1 conds2 ->
  translateLegacy_matches legacyAlias negated conds1 (cs1, ps1, i) = Ok (cs1', ps1', i1') ->
  translateLegacy_matches legacyAlias negated conds2 (cs2, ps2, i) = Ok (cs2', ps2', i2') ->
  exists new, cs1' = cs1 ++ new /\ cs2' = cs2 ++ new /\ i1' = i2'.
Proof.
  intros Hsame. revert cs1 ps1 cs2 ps2 i.
  induction Hsame as [|cond1 cond2 conds1 conds2 Hcond _ IH];
    intros cs1 ps1 cs2 ps2 i H1 H2; cbn in H1, H2.
  - injection H1 as <- <- <-. injection H2 as <- <- <-.
    exists []. by rewrite !app_nil_r.
  - unfold same_match in Hcond. rewrite <- Hcond in H2.
    destruct (nullish cond1); [discriminate H1|].
    destruct (nullish cond2); [discriminate H2|].
    destruct (toAllowedColumn _) as [column|]; [|discriminate H1].
    cbn in H1, H2.
    destruct (nullish (prop cond1 "match")); [discriminate H1|].
    destruct (nullish (prop cond2 "match")); [discriminate H2|].
    destruct (IH _ _ _ _ _ H1 H2) as (new & -> & -> & ->).
    exists (legacy_condition legacyAlias column negated i :: new).
    by rewrite <- !app_assoc.
Qed.

Lemma iterate_elements v elems : iterate v = Ok elems -> elements v = elems.
Proof. unfold elements. by intros ->. Qed.

Lemma translateLegacy_entries_Ok legacyAlias entries cs ps i cs' ps' i' :
  translateLegacy_entries legacyAlias entries (cs, ps, i) = Ok (cs', ps', i') ->
  exists new,
    cs' = cs ++ new
    /\ Forall (allowlisted [legacyAlias]) new
    /\ ps' = ps ++ flat_map legacy_entry_values entries.
Proof.
  revert cs ps i.
  induction entries as [|[key value] entries IH]; intros cs ps i H;
    cbn [translateLegacy_entries] in H.
  - injection H as <- <- <-. exists []. by rewrite !app_nil_r.
  - unfold legacy_entry_values at 1. cbn [fst snd flat_map].
    destruct (String.eqb key "must") eqn:Hmust;
      [|destruct (String.eqb key "must_not") eqn:Hmust_not]; cbn [orb].
    1,2: destruct (iterate value) as [elems|] eqn:Helems; [|discriminate H];
         cbn [bind] in H; apply iterate_elements in Helems as ->;
         destruct (translateLegacy_matches _ _ _ _) as [[[cs1 ps1] i1]|] eqn:H1;
           [|discriminate H];
         cbn [bind] in H; apply translateLegacy_matches_Ok in H1 as (new1 & -> & Hnew1 & ->);
         apply IH in H as (new & -> & Hnew & ->);
         exists (new1 ++ new); rewrite <- !app_assoc; split; [done|];
         split; [by apply Forall_app|done].
    destruct (toAllowedColumn _) as [column|] eqn:Hcolumn; [|discriminate H].
    cbn [bind] in H. apply IH in H as (new & -> & Hnew & ->).
    exists (legacy_condition legacyAlias column false i :: new).
    rewrite <- !app_assoc. split; [done|]. split; [|done].
    constructor; [|exact Hnew].
    apply legacy_condition_allowlisted. by eapply toAllowedColumn_Ok.
Qed.

Lemma translateLegacy_entries_same legacyAlias entries1 entries2
    cs1 ps1 cs2 ps2 i cs1' ps1' i1' cs2' ps2' i2' :
  Forall2 same_entry entries1 entries2 ->
  translateLegacy_entries legacyAlias entries1 (cs1, ps1, i) = Ok (cs1', ps1', i1') ->
  translateLegacy_entries legacyAlias entries2 (cs2, ps2, i) = Ok (cs2', ps2', i2') ->
  exists new, cs1' = cs1 ++ new /\ cs2' = cs2 ++ new /\ i1' = i2'.
Proof.
  intros Hsame. revert cs1 ps1 cs2 ps2 i.
  induction Hsame as [|[key value1] [key2 value2] entries1 entries2 Hentry _ IH];
    intros cs1 ps1 cs2 ps2 i H1 H2; cbn [translateLegacy_entries] in H1, H2.
  - injection H1 as <- <- <-. injection H2 as <- <- <-.
    exists []. by rewrite !app_nil_r.
  - destruct Hentry as [Hkey Hvalue]. cbn [fst snd] in Hkey, Hvalue. subst key2.
    destruct (String.eqb_spec key "must") as [->|_];
      [|destruct (String.eqb_spec key "must_not") as [->|_]].
    1,2: cbn in Hvalue;
         destruct (iterate value1) as [elems1|] eqn:Helems1; [|discriminate H1];
         destruct (iterate value2) as [elems2|] eqn:Helems2; [|discriminate H2];
         cbn [bind] in H1, H2;
         apply iterate_elements in Helems1 as <-;
         apply iterate_elements in Helems2 as <-;
         destruct (translateLegacy_matches _ _ (elements value1) _)
           as [[[cs1m ps1m] i1m]|] eqn:Hm1; [|discriminate H1];
         destruct (translateLegacy_matches _ _ (elements value2) _)
           as [[[cs2m ps2m] i2m]|] eqn:Hm2; [|discriminate H2];
         cbn [bind] in H1, H2;
         destruct (translateLegacy_matches_same _ _ _ _ _ _ _ _ _ _ _ _ _ _ _
                     Hvalue Hm1 Hm2) as (new1 & -> & -> & ->);
         destruct (IH _ _ _ _ _ H1 H2) as (new & -> & -> & ->);
         exists (new1 ++ new); by rewrite <- !app_assoc.
    destruct (toAllowedColumn (JStr key)) as [column|]; [|discriminate H1].
    cbn [bind] in H1, H2.
    destruct (IH _ _ _ _ _ H1 H2) as (new & -> & -> & ->).
    exists (legacy_condition legacyAlias column false i :: new).
    by rewrite <- !app_assoc.
Qed.

(** ** Filters of the same structure *)

Lemma lookup_prop_cons k key value props :
  lookup_prop k ((key, value) :: props)
  = if String.eqb key k then value else lookup_prop k props.
Proof. unfold lookup_prop. cbn. by destruct (String.eqb key k). Qed.

Lemma same_structure_keys f1 f2 :
  same_structure f1 f2 -> map fst f1 = map fst f2.
Proof.
  induction 1 as [|e1 e2 f1 f2 [Hkey _] _ IH]; [reflexivity|].
  cbn. by rewrite Hkey, IH.
Qed.

Lemma same_structure_combine f1 f2 :
  same_structure f1 f2 ->
  lookup_prop "combine" f1 = lookup_prop "combine" f2.
Proof.
  induction 1 as [|[key value1] [key2 value2] f1 f2 [Hkey Hvalue] _ IH];
    [reflexivity|].
  cbn [fst snd] in Hkey, Hvalue. subst key2. rewrite !lookup_prop_cons.
  destruct (String.eqb_spec key "combine") as [->|_]; [|exact IH].
  exact Hvalue.
Qed.

Lemma same_structure_conditions f1 f2 :
  same_structure f1 f2 ->
  Forall2 same_condition (elements (lookup_prop "conditions" f1))
                         (elements (lookup_prop "conditions" f2)).
Proof.
  induction 1 as [|[key value1] [key2 value2] f1 f2 [Hkey Hvalue] _ IH];
    [constructor|].
  cbn [fst snd] in Hkey, Hvalue. subst key2. rewrite !lookup_prop_cons.
  destruct (String.eqb_spec key "conditions") as [->|_]; [|exact IH].
  exact Hvalue.
Qed.

Lemma has_conditions_keys f :
  has_conditions f = existsb (fun k => String.eqb k "conditions") (map fst f).
Proof. unfold has_conditions. induction f as [|e f IH]; cbn; congruence. Qed.

(** ** The compiled fragment *)

(** Unfolds a successful [translateNewDSL]. *)
Lemma translateNewDSL_Ok dsl offset sqlText ps :
  translateNewDSL dsl offset = Ok (sqlText, ps) ->
  exists combine ts,
    combine_keyword dsl = Ok combine
    /\ translated_from (1 + offset) (elements (lookup_prop "conditions" dsl)) ts
    /\ ps = flat_map params ts
    /\ sqlText = match ts with
                 | [] => ""
                 | _ => " AND " +:+ joined combine (map sql ts)
                 end.
Proof.
  unfold translateNewDSL. intros H.
  destruct (combine_keyword dsl) as [combine|]; [|discriminate H].
  destruct (iterate _) as [conds|] eqn:Hconds; [|discriminate H].
  apply iterate_elements in Hconds as <-. cbn [bind] in H.
  destruct (translateNewDSL_loop _ _ _ _) as [[sqlFragments ps']|] eqn:Hloop;
    [|discriminate H].
  cbn [bind] in H.
  apply translateNewDSL_loop_Ok in Hloop as (ts & Hts & -> & ->).
  exists combine, ts. split; [reflexivity|]. split; [exact Hts|].
  cbn [app] in H. destruct ts as [|t ts]; cbn in H.
  - by injection H as <- <-.
  - by injection H as <- <-.
Qed.

Lemma translateLegacyFilter_Ok filter offset legacyAlias sqlText ps :
  translateLegacyFilter filter offset legacyAlias = Ok (sqlText, ps) ->
  exists conditions i,
    translateLegacy_entries legacyAlias filter ([], [], (1 + offset)%N)
    = Ok (conditions, ps, i)
    /\ sqlText = if (0 <? length conditions)%nat
                 then " AND " +:+ join " AND " conditions
                 else "".
Proof.
  unfold translateLegacyFilter. intros H.
  destruct (translateLegacy_entries _ _ _) as [[[conditions ps'] i]|];
    [|discriminate H].
  cbn [bind] in H. injection H as <- <-. by exists conditions, i.
Qed.

Lemma translateFilter_Ok filter offset legacyAlias sqlText ps :
  translateFilter (Some filter) offset legacyAlias = Ok (sqlText, ps) ->
  allowlisted (column_aliases filter legacyAlias) sqlText
  /\ ps = filter_values filter.
Proof.
  unfold translateFilter, filter_values, column_aliases. intros H.
  destruct (has_conditions filter).
  - destruct (0 <? length (extraKeys filter))%nat; [discriminate H|].
    apply translateNewDSL_Ok in H as (combine & ts & Hcombine & Hts & -> & ->).
    split; [|exact (translated_from_values _ _ _ Hts)].
    destruct ts as [|t ts]; [apply al_empty|].
    apply joined_allowlisted.
    + exact (combine_keyword_Ok _ _ Hcombine).
    + exact (translated_from_allowlisted _ _ _ Hts).
  - apply translateLegacyFilter_Ok in H as (conditions & i & Hentries & ->).
    apply translateLegacy_entries_Ok in Hentries as (new & -> & Hnew & ->).
    split; [|reflexivity]. cbn [app].
    destruct (0 <? length new)%nat; [|apply al_empty].
    apply al_app; [allowlist|]. apply join_allowlisted; [allowlist|exact Hnew].
Qed.

Lemma translateFilter_same f1 f2 offset legacyAlias sql1 ps1 sql2 ps2 :
  same_structure f1 f2 ->
  translateFilter (Some f1) offset legacyAlias = Ok (sql1, ps1) ->
  translateFilter (Some f2) offset legacyAlias = Ok (sql2, ps2) ->
  sql1 = sql2.
Proof.
  intros Hsame H1 H2. unfold translateFilter in H1, H2.
  rewrite !has_conditions_keys in H1, H2. unfold extraKeys in H1, H2.
  rewrite <- (same_structure_keys _ _ Hsame) in H2.
  destruct (existsb _ (map fst f1)).
  - destruct (0 <? _)%nat; [discriminate H1|].
    apply translateNewDSL_Ok in H1 as (combine1 & ts1 & Hcombine1 & Hts1 & _ & ->).
    apply translateNewDSL_Ok in H2 as (combine2 & ts2 & Hcombine2 & Hts2 & _ & ->).
    unfold combine_keyword in Hcombine1, Hcombine2.
    rewrite <- (same_structure_combine _ _ Hsame) in Hcombine2.
    rewrite Hcombine1 in Hcombine2. injection Hcombine2 as <-.
    pose proof (translated_from_same _ _ _ _ _
                  (same_structure_conditions _ _ Hsame) Hts1 Hts2) as Hsql.
    rewrite Hsql. apply (f_equal length) in Hsql.
    rewrite !length_map in Hsql.
    by destruct ts1, ts2.
  - apply translateLegacyFilter_Ok in H1 as (cs1 & i1 & Hentries1 & ->).
    apply translateLegacyFilter_Ok in H2 as (cs2 & i2 & Hentries2 & ->).
    by destruct (translateLegacy_entries_same _ _ _ _ _ _ _ _ _ _ _ _ _ _
                   Hsame Hentries1 Hentries2) as (new & -> & -> & _).
Qed.

(** ** What allow-listed text cannot contain *)

Lemma occurs_app c s1 s2 :
  occurs c (s1 +:+ s2) = occurs c s1 || occurs c s2.
Proof.
  induction s1 as [|c1 s1 IH]; [reflexivity|].
  change (Ascii.eqb c c1 || occurs c (s1 +:+ s2)
          = Ascii.eqb c c1 || occurs c s1 || occurs c s2).
  by rewrite IH, orb_assoc.
Qed.

Lemma pretty_N_char_occurs c d :
  occurs c "0123456789" = false -> Ascii.eqb c (pretty_N_char d) = false.
Proof.
  intros H. unfold occurs in H.
  cbn [existsb String.list_ascii_of_string] in H.
  repeat (apply orb_false_elim in H as [? H]).
  unfold pretty_N_char. by repeat case_match.
Qed.

Lemma pretty_N_go_occurs c x s :
  occurs c "0123456789" = false ->
  occurs c s = false -> occurs c (pretty_N_go x s) = false.
Proof.
  intros Hc. revert s. induction (N.lt_wf_0 x) as [x _ IH]; intros s Hs.
  destruct (decide (x = 0)%N) as [->|Hx]; [by rewrite pretty_N_go_0|].
  rewrite pretty_N_go_step by lia. apply IH; [by apply N.div_lt; lia|].
  change (occurs c (String ?d s)) with (Ascii.eqb c d || occurs c s).
  by rewrite Hs, orb_false_r, pretty_N_char_occurs.
Qed.

Lemma placeholder_occurs c i :
  occurs c "$0123456789" = false -> occurs c (placeholder i) = false.
Proof.
  intros Hc. change (Ascii.eqb c "$" || occurs c "0123456789" = false) in Hc.
  apply orb_false_elim in Hc as [Hdollar Hdigits].
  unfold placeholder. rewrite occurs_app.
  change (occurs c "$") with (Ascii.eqb c "$" || false).
  rewrite Hdollar. cbn [orb].
  unfold pretty, pretty_N. destruct (decide (i = 0)%N).
  - change (Ascii.eqb c "0" || false = false).
    unfold occurs in Hdigits.
    cbn [existsb String.list_ascii_of_string] in Hdigits.
    apply orb_false_elim in Hdigits as [-> _]. reflexivity.
  - by apply pretty_N_go_occurs.
Qed.

(** No statement separator: text built from the allow-list has no [;],
    unless one of the aliases has one. *)
Lemma allowlisted_no_semicolon aliases s :
  Forall (fun tableAlias => occurs ";" tableAlias = false) aliases ->
  allowlisted aliases s ->
  occurs ";" s = false.
Proof.
  intros Haliases Hs.
  induction Hs as [|op Hop|tableAlias column Htable Hcolumn|i|s1 s2 _ IH1 _ IH2].
  - reflexivity.
  - revert op Hop. apply Forall_forall. apply (bool_decide_unpack _).
    by vm_compute.
  - rewrite !occurs_app. apply orb_false_iff. split.
    + exact (proj1 (Forall_forall _ _) Haliases _ Htable).
    + revert column Hcolumn. apply Forall_forall.
      apply (bool_decide_unpack _). by vm_compute.
  - by apply placeholder_occurs.
  - by rewrite occurs_app, IH1, IH2.
Qed.

(** A longer list of aliases allows more text. *)
Lemma allowlisted_mono aliases1 aliases2 s :
  aliases1 ⊆ aliases2 -> allowlisted aliases1 s -> allowlisted aliases2 s.
Proof.
  intros Hsub Hs.
  induction Hs as [|op Hop|tableAlias column Htable Hcolumn|i|s1 s2 _ IH1 _ IH2].
  - apply al_empty.
  - by apply al_operator.
  - apply al_column; [by apply Hsub|exact Hcolumn].
  - apply al_placeholder.
  - by apply al_app.
Qed.

(** ** The dots of allow-listed text *)

Lemma dots_after_c_or_d_any previous s :
  dots_after_c_or_d "." s = true -> dots_after_c_or_d previous s = true.
Proof.
  destruct s as [|c s]; [reflexivity|]. cbn [dots_after_c_or_d].
  destruct (Ascii.eqb c "."); [discriminate|]. by intros ->.
Qed.

Lemma dots_after_c_or_d_app previous s1 s2 :
  dots_after_c_or_d previous s1 = true ->
  dots_after_c_or_d "." s2 = true ->
  dots_after_c_or_d previous (s1 +:+ s2) = true.
Proof.
  intros H1 H2. revert previous H1.
  induction s1 as [|c s1 IH]; intros previous H1.
  - by apply dots_after_c_or_d_any.
  - change (dots_after_c_or_d previous (String c (s1 +:+ s2)) = true).
    cbn [dots_after_c_or_d] in H1 |- *.
    apply andb_true_iff in H1 as [-> H1]. by apply IH.
Qed.

Lemma dots_after_c_or_d_none previous s :
  occurs "." s = false -> dots_after_c_or_d previous s = true.
Proof.
  revert previous. induction s as [|c s IH]; intros previous H; [reflexivity|].
  change (Ascii.eqb "." c || occurs "." s = false) in H.
  apply orb_false_elim in H as [Hc Hs]. cbn [dots_after_c_or_d].
  rewrite Ascii.eqb_sym, Hc. by apply IH.
Qed.

(** In text built from the list with the fixed aliases, every dot is the
    dot of a qualified column: it comes right after [c] or [d]. *)
Lemma allowlisted_dots s :
  allowlisted TABLE_ALIASES s -> dots_after_c_or_d "." s = true.
Proof.
  intros Hs.
  induction Hs as [|op Hop|tableAlias column Htable Hcolumn|i|s1 s2 _ IH1 _ IH2].
  - reflexivity.
  - revert op Hop. apply Forall_forall. apply (bool_decide_unpack _).
    by vm_compute.
  - assert (dots_after_c_or_d "." column = true) as Hdots.
    { revert column Hcolumn. apply Forall_forall.
      apply (bool_decide_unpack _). by vm_compute. }
    unfold TABLE_ALIASES in Htable.
    repeat (apply elem_of_cons in Htable as [->|Htable]; [exact Hdots|]).
    by apply elem_of_nil in Htable.
  - apply dots_after_c_or_d_none. by apply placeholder_occurs.
  - by apply dots_after_c_or_d_app.
Qed.

(** ** Injection safety *)

(** C1, amended. The filter compiler is injection-safe for the filter, and
    the alias of the legacy path is not from a fixed list. Take two filters
    of the same structure (the same keys in the same order, and under them
    the same fields, operators, combine operator and numbers of values),
    whatever their values, compiled with the same offset and the same
    [tableAlias] argument. When both compile, the two SQL texts are equal;
    the text is built only from the fixed lists of column names, operators
    and positional placeholders, the columns qualified by the fixed aliases
    [c] and [d] on the DSL path and by the [tableAlias] argument of the call
    on the legacy path, so that with an argument among [c] and [d] (the
    default is [c]) all of the text is from the fixed lists; and the values
    of each filter are, in order, its parameter list. *)
Theorem translateFilter_injection_safe f1 f2 offset legacyAlias sql1 ps1 sql2 ps2 :
  same_structure f1 f2 ->
  translateFilter (Some f1) offset legacyAlias = Ok (sql1, ps1) ->
  translateFilter (Some f2) offset legacyAlias = Ok (sql2, ps2) ->
  sql1 = sql2
  /\ allowlisted (column_aliases f1 legacyAlias) sql1
  /\ (legacyAlias ∈ TABLE_ALIASES -> allowlisted TABLE_ALIASES sql1)
  /\ ps1 = filter_values f1
  /\ ps2 = filter_values f2.
Proof.
  intros Hsame H1 H2.
  split; [exact (translateFilter_same _ _ _ _ _ _ _ _ Hsame H1 H2)|].
  destruct (translateFilter_Ok _ _ _ _ _ H1) as [Hallow Hvalues1].
  destruct (translateFilter_Ok _ _ _ _ _ H2) as [_ Hvalues2].
  repeat split; try done.
  intros Halias. revert Hallow. apply allowlisted_mono.
  unfold column_aliases. destruct (has_conditions f1); [done|].
  intros tableAlias Htable. by apply list_elem_of_singleton in Htable as ->.
Qed.

(** Two concrete filters have the same structure: by evaluation, entry by
    entry and condition by condition. *)
Ltac same_structure_by_evaluation :=
  repeat lazymatch goal with
         | |- same_structure _ _ => unfold same_structure
         | |- Forall2 _ [] [] => constructor
         | |- Forall2 _ (_ :: _) (_ :: _) => constructor
         | |- Forall2 ?R ?l1 ?l2 =>
             let l1' := eval hnf in l1 in
             let l2' := eval hnf in l2 in
             change (Forall2 R l1' l2')
         | |- same_entry _ _ => split; [reflexivity|]; cbn
         | |- same_condition _ _ => split; [reflexivity|split; reflexivity]
         | |- same_match _ _ => reflexivity
         | |- _ = _ => reflexivity
         | |- True => exact I
         end.

Lemma translateFilter_injection_safe_witness :
  (same_structure plain_dsl_filter hostile_dsl_filter
   /\ translateFilter (Some plain_dsl_filter) 0 "c"
      = Ok (" AND (c.path LIKE $1 || '%' OR c.lang IN ($2, $3))",
            [JStr "src/"; JStr "ts"; JStr "js"])
   /\ translateFilter (Some hostile_dsl_filter) 0 "c"
      = Ok (" AND (c.path LIKE $1 || '%' OR c.lang IN ($2, $3))",
            [JStr "' OR 1=1 --"; JStr "x'); DROP TABLE chunks; --"; JNull])
   /\ allowlisted TABLE_ALIASES
        " AND (c.path LIKE $1 || '%' OR c.lang IN ($2, $3))")
  /\ (same_structure plain_legacy_filter hostile_legacy_filter
      /\ translateFilter (Some plain_legacy_filter) 4 "d"
         = Ok (" AND d.doc_type = $5 AND d.path NOT LIKE $6 || '%'",
               [JStr "code"; JStr "src/"])
      /\ translateFilter (Some hostile_legacy_filter) 4 "d"
         = Ok (" AND d.doc_type = $5 AND d.path NOT LIKE $6 || '%'",
               [JStr "'; DROP TABLE chunks; --"; JStr "%' OR ''='"])
      /\ allowlisted TABLE_ALIASES
           " AND d.doc_type = $5 AND d.path NOT LIKE $6 || '%'")
  /\ (translateFilter (Some plain_legacy_filter) 4 "chunks"
      = Ok (" AND chunks.doc_type = $5 AND chunks.path NOT LIKE $6 || '%'",
            [JStr "code"; JStr "src/"])
      /\ translateFilter (Some hostile_legacy_filter) 4 "chunks"
         = Ok (" AND chunks.doc_type = $5 AND chunks.path NOT LIKE $6 || '%'",
               [JStr "'; DROP TABLE chunks; --"; JStr "%' OR ''='"])
      /\ allowlisted ["chunks"]
           " AND chunks.doc_type = $5 AND chunks.path NOT LIKE $6 || '%'").
Proof.
  assert (same_structure plain_dsl_filter hostile_dsl_filter) as Hdsl
    by same_structure_by_evaluation.
  assert (same_structure plain_legacy_filter hostile_legacy_filter) as Hlegacy
    by same_structure_by_evaluation.
  split; [|split].
  - split; [exact Hdsl|]. split; [reflexivity|]. split; [reflexivity|].
    exact (proj1 (proj2 (proj2 (translateFilter_injection_safe
                                  plain_dsl_filter hostile_dsl_filter 0%N "c"
                                  _ _ _ _ Hdsl eq_refl eq_refl)))
             (list_elem_of_here _ _)).
  - split; [exact Hlegacy|]. split; [reflexivity|]. split; [reflexivity|].
    exact (proj1 (proj2 (proj2 (translateFilter_injection_safe
                                  plain_legacy_filter hostile_legacy_filter 4%N "d"
                                  _ _ _ _ Hlegacy eq_refl eq_refl)))
             (list_elem_of_further _ _ _ (list_elem_of_here _ _))).
  - split; [reflexivity|]. split; [reflexivity|].
    exact (proj1 (proj2 (translateFilter_injection_safe
                           plain_legacy_filter hostile_legacy_filter 4%N "chunks"
                           _ _ _ _ Hlegacy eq_refl eq_refl))).
Defined.

(** C1, as the specification has it, fails on the legacy path: the text is
    not built from fixed lists only, it holds the [tableAlias] argument of
    the call as the caller wrote it. With the alias [chunks] of the test
    suite the filter [{docType: "code"}] compiles to
    [" AND chunks.doc_type = $1"], and with an alias that holds a [;] the
    text holds it too; neither text is built from the lists with the fixed
    aliases [c] and [d]. *)
Lemma translateFilter_alias_in_text :
  translateFilter (Some [("docType", JStr "code")]) 0 "chunks"
  = Ok (" AND chunks.doc_type = $1", [JStr "code"])
  /\ ~ allowlisted TABLE_ALIASES " AND chunks.doc_type = $1"
  /\ translateFilter (Some [("docType", JStr "code")]) 0 "c; --"
     = Ok (" AND c; --.doc_type = $1", [JStr "code"])
  /\ ~ allowlisted TABLE_ALIASES " AND c; --.doc_type = $1".
Proof.
  split; [reflexivity|]. split; [|split; [reflexivity|]].
  - intros H. apply allowlisted_dots in H. discriminate H.
  - intros H. apply allowlisted_no_semicolon in H; [discriminate H|].
    by repeat constructor.
Qed.

(** ** The fragment of the DSL path *)

Lemma translateCondition_path cond i t :
  translateCondition cond i = Ok t ->
  prop cond "field" = JStr "path" ->
  (prop cond "op" = JStr "eq" ->
   t.(sql) = "c.path LIKE " +:+ placeholder i +:+ " || '%'")
  /\ (prop cond "op" = JStr "ne" ->
      t.(sql) = "c.path NOT LIKE " +:+ placeholder i +:+ " || '%'").
Proof.
  intros H Hfield. unfold translateCondition in H. rewrite Hfield in H.
  destruct (nullish cond); [discriminate H|].
  change (FIELD_DEFS_get (JStr "path"))
    with (Some {| tableAlias := "c"; column := "path"; allowedOps := TEXT_OPS |}) in H.
  cbv iota beta in H. cbn [tableAlias column allowedOps] in H.
  destruct (negb _ && _); [discriminate H|].
  split; intros Hop; rewrite Hop in H;
    (destruct (negb (ops_has _ _)); [discriminate H|]).
  - change (switch_op (JStr "eq")) with (Some OpEq) in H.
    change ("path" =? "path")%string with true in H.
    by injection H as <-.
  - change (switch_op (JStr "ne")) with (Some OpNe) in H.
    change ("path" =? "path")%string with true in H.
    by injection H as <-.
Qed.

(** C3, amended. A DSL filter that compiles yields the empty fragment and no
    parameter when it has no condition, and otherwise a fragment
    [" AND <joined>"]: the one condition as it is, or two conditions and
    more joined by [" AND "] or [" OR "] inside outer parentheses. The first
    condition is translated at the index [offset + 1] and each next one at
    the index of the previous one plus its arity, and the parameters are
    those of the conditions in order. [eq] and [ne] on the field [path]
    become [c.path LIKE $N || '%'] and [c.path NOT LIKE $N || '%']. The
    filter [{conditions: [docType eq "code", lang eq "ts"], combine: "or"}]
    with offset 0 compiles to [" AND (c.doc_type = $1 OR c.lang = $2)"] with
    the parameters ["code"] and ["ts"]. *)
Theorem translateFilter_DSL_fragment :
  (forall filter offset legacyAlias sqlText ps,
     has_conditions filter = true ->
     translateFilter (Some filter) offset legacyAlias = Ok (sqlText, ps) ->
     exists combine ts,
       combine_keyword filter = Ok combine
       /\ (combine = "AND" \/ combine = "OR")
       /\ translated_from (offset + 1)
            (elements (lookup_prop "conditions" filter)) ts
       /\ ps = flat_map params ts
       /\ sqlText = match map sql ts with
                    | [] => ""
                    | [only] => " AND " +:+ only
                    | parts =>
                        " AND (" +:+ join (" " +:+ combine +:+ " ") parts +:+ ")"
                    end)
  /\ (forall cond i t,
        translateCondition cond i = Ok t ->
        prop cond "field" = JStr "path" ->
        (prop cond "op" = JStr "eq" ->
         t.(sql) = "c.path LIKE " +:+ placeholder i +:+ " || '%'")
        /\ (prop cond "op" = JStr "ne" ->
            t.(sql) = "c.path NOT LIKE " +:+ placeholder i +:+ " || '%'"))
  /\ translateFilter (Some example_or_filter) 0 "c"
     = Ok (" AND (c.doc_type = $1 OR c.lang = $2)", [JStr "code"; JStr "ts"]).
Proof.
  split; [|split; [exact translateCondition_path|by vm_compute]].
  intros filter offset legacyAlias sqlText ps Hconditions H.
  unfold translateFilter in H. rewrite Hconditions in H.
  destruct (0 <? _)%nat; [discriminate H|].
  apply translateNewDSL_Ok in H as (combine & ts & Hcombine & Hts & -> & ->).
  exists combine, ts. rewrite (N.add_comm offset 1).
  split; [exact Hcombine|]. split; [exact (combine_keyword_Ok _ _ Hcombine)|].
  split; [exact Hts|]. split; [reflexivity|].
  by destruct ts as [|t [|t' ts]].
Qed.

Lemma translateFilter_DSL_fragment_witness :
  (exists combine ts,
     combine_keyword example_or_filter = Ok combine
     /\ (combine = "AND" \/ combine = "OR")
     /\ translated_from (0 + 1)
          (elements (lookup_prop "conditions" example_or_filter)) ts
     /\ [JStr "code"; JStr "ts"] = flat_map params ts
     /\ " AND (c.doc_type = $1 OR c.lang = $2)"
        = match map sql ts with
          | [] => ""
          | [only] => " AND " +:+ only
          | parts => " AND (" +:+ join (" " +:+ combine +:+ " ") parts +:+ ")"
          end)
  /\ (exists t,
        translateCondition example_path_condition 5 = Ok t
        /\ t.(sql) = "c.path LIKE " +:+ placeholder 5 +:+ " || '%'").
Proof.
  split.
  - apply (proj1 translateFilter_DSL_fragment example_or_filter 0%N "c");
      reflexivity.
  - eexists. split; [reflexivity|].
    apply (proj1 (proj2 translateFilter_DSL_fragment)
             example_path_condition 5%N _ eq_refl eq_refl).
    reflexivity.
Defined.

(** C3 as it is worded fails on a filter without conditions: it compiles,
    and the fragment is empty, not of the form [" AND <joined>"]. *)
Lemma translateFilter_DSL_no_condition :
  has_conditions [("conditions", JArr [])] = true
  /\ translateFilter (Some [("conditions", JArr [])]) 0 "c" = Ok ("", [])
  /\ forall joined, "" <> " AND " +:+ joined.
Proof.
  split; [reflexivity|]. split; [reflexivity|]. intros joined. discriminate.
Qed.

(** ** What the compiler rejects *)

(** The operator the [switch] selects decides the three tests on the
    operator name. *)
Lemma switch_op_among cond :
  match switch_op (prop cond "op") with
  | Some (OpIn | OpNotIn) =>
      op_among ["in"; "notIn"] cond = true
      /\ op_among ["between"; "notBetween"] cond = false
      /\ unknown_operator cond = false
  | Some (OpBetween | OpNotBetween) =>
      op_among ["in"; "notIn"] cond = false
      /\ op_among ["between"; "notBetween"] cond = true
      /\ unknown_operator cond = false
  | Some _ =>
      op_among ["in"; "notIn"] cond = false
      /\ op_among ["between"; "notBetween"] cond = false
      /\ unknown_operator cond = false
  | None => unknown_operator cond = true
  end.
Proof.
  unfold unknown_operator, op_among.
  destruct (prop cond "op") as [| | | |op| |]; try reflexivity.
  cbv beta iota delta [switch_op find operator_cases fst snd existsb is_string
                       SUPPORTED_OPERATORS].
  repeat match goal with
         | |- context [String.eqb ?name op] =>
             destruct (String.eqb_spec name op) as [<-|?]; [by vm_compute|]
         end.
  repeat match goal with
         | |- context [String.eqb op ?name] =>
             destruct (String.eqb_spec op name) as [->|_]; [congruence|]
         end.
  reflexivity.
Qed.

(** A result that is a [FilterValidationError], with a fault found. *)
Ltac rejected :=
  split; [by intros e [= <-]; eauto | split; [done | by eauto]].

(** A result that is not an exception, with no fault found. *)
Ltac accepted :=
  split; [by intros e [=] | split; [by intros [e [=]] | discriminate]].

Lemma translateCondition_Throw cond i :
  is_FilterCondition cond = true ->
  (forall e, translateCondition cond i = Throw e ->
             exists why, e = FilterValidationError why)
  /\ ((exists e, translateCondition cond i = Throw e)
      <-> condition_fault cond = true).
Proof.
  intros Htyped. unfold is_FilterCondition in Htyped.
  repeat (apply andb_prop in Htyped as [Htyped ?]).
  destruct cond as [| | | | | |props]; try discriminate Htyped.
  pose proof (switch_op_among (JObj props)) as Hop.
  unfold translateCondition, condition_fault, unknown_field,
    operator_not_allowed, alias_differs, absent_or_empty_values, missing_bounds.
  cbn [nullish].
  destruct (FIELD_DEFS_get _) as [fieldDef|]; [|rejected].
  destruct (negb (is_undefined _) && _); [rewrite orb_true_r; rejected|].
  destruct (negb (ops_has _ _)); [rejected|].
  cbn [orb].
  destruct (switch_op _) as [[]|];
    [destruct Hop as (-> & -> & ->)..|rewrite Hop, orb_true_r; rejected];
    cbn [andb orb]; unfold compare1, membership, range_missing.
  1,2: by destruct (String.eqb _ _); accepted.
  1-4,9,10: by accepted.
  1,2: destruct (prop (JObj props) "values") as [| | | | |[|value values]|];
       try discriminate; cbn [length Nat.eqb]; by rejected || accepted.
  1,2: destruct (prop (JObj props) "range") as [| | | | | |range];
       try discriminate; cbn [truthy negb orb prop is_undefined];
       [by rejected|];
       destruct (is_undefined (lookup_prop "low" range) || _);
       by rejected || accepted.
Qed.

Lemma translateNewDSL_loop_Throw conds sqlFragments ps i :
  forallb is_FilterCondition conds = true ->
  (forall e, translateNewDSL_loop conds sqlFragments ps i = Throw e ->
             exists why, e = FilterValidationError why)
  /\ ((exists e, translateNewDSL_loop conds sqlFragments ps i = Throw e)
      <-> existsb condition_fault conds = true).
Proof.
  revert sqlFragments ps i.
  induction conds as [|cond conds IH]; intros sqlFragments ps i Htyped;
    cbn [translateNewDSL_loop existsb].
  - accepted.
  - cbn [forallb] in Htyped. apply andb_prop in Htyped as [Hcond Hconds].
    destruct (translateCondition_Throw cond i Hcond) as [Hwhy Hfault].
    destruct (translateCondition cond i) as [[tsql tparams tnext]|e]; cbn [bind].
    + destruct (condition_fault cond).
      * destruct Hfault as [_ Hfault]. by destruct (Hfault eq_refl).
      * exact (IH _ _ _ Hconds).
    + destruct Hfault as [Hfault _]. rewrite Hfault by eauto.
      split; [by intros e' [= <-]; apply Hwhy|]. split; [done|by eauto].
Qed.

Lemma extraKeys_mixes filter :
  has_conditions filter = true ->
  (0 <? length (extraKeys filter))%nat = mixes_legacy_key filter.
Proof.
  intros Hconditions. unfold mixes_legacy_key, extraKeys.
  rewrite Hconditions. cbn [andb].
  induction (map fst filter) as [|key keys IH]; [reflexivity|].
  cbn [List.filter existsb].
  assert (bool_decide (key ∈ dslKeys)
          = String.eqb key "conditions" || String.eqb key "combine") as ->.
  { unfold dslKeys.
    destruct (bool_decide_reflect (key ∈ (list_to_set ["conditions"; "combine"] : gset string)))
      as [Hin|Hnotin]; symmetry.
    - apply orb_true_iff. rewrite !String.eqb_eq.
      apply elem_of_list_to_set in Hin.
      by repeat (apply elem_of_cons in Hin as [?|Hin]; [by auto|]);
        apply elem_of_nil in Hin.
    - apply orb_false_iff.
      split; apply String.eqb_neq; intros ->; apply Hnotin;
        apply elem_of_list_to_set; repeat constructor. }
  rewrite negb_orb. destruct (negb _ && negb _); [reflexivity|exact IH].
Qed.

Lemma combine_keyword_Throw filter :
  is_absent_or is_str (lookup_prop "combine" filter) = true ->
  (forall e, combine_keyword filter = Throw e ->
             exists why, e = FilterValidationError why)
  /\ ((exists e, combine_keyword filter = Throw e)
      <-> invalid_combine filter = true).
Proof.
  unfold combine_keyword, invalid_combine, is_absent_or.
  destruct (lookup_prop "combine" filter) as [| | | |combine| |];
    try discriminate; intros _; cbn; [by accepted|].
  destruct (negb (String.eqb combine "and") && negb (String.eqb combine "or"));
    by rejected || accepted.
Qed.

Lemma lookup_prop_absent filter :
  has_conditions filter = false -> lookup_prop "conditions" filter = JUndefined.
Proof.
  unfold has_conditions.
  induction filter as [|[key value] filter IH]; [reflexivity|].
  rewrite lookup_prop_cons. cbn [existsb fst].
  destruct (String.eqb key "conditions"); [discriminate|exact IH].
Qed.

Lemma is_FilterDSL_has_conditions filter :
  is_FilterDSL filter = true -> has_conditions filter = true.
Proof.
  unfold is_FilterDSL. destruct (has_conditions filter) eqn:Hconditions;
    [reflexivity|].
  by rewrite (lookup_prop_absent _ Hconditions).
Qed.

Lemma translateFilter_DSL_Throw filter offset legacyAlias :
  is_FilterDSL filter = true ->
  (forall e, translateFilter (Some filter) offset legacyAlias = Throw e ->
             exists why, e = FilterValidationError why)
  /\ ((exists e, translateFilter (Some filter) offset legacyAlias = Throw e)
      <-> mixes_legacy_key filter || filter_fault filter = true).
Proof.
  intros Htyped. pose proof (is_FilterDSL_has_conditions _ Htyped) as Hconditions.
  unfold translateFilter. rewrite Hconditions, (extraKeys_mixes _ Hconditions).
  destruct (mixes_legacy_key filter); [by rejected|]. cbn [orb].
  unfold is_FilterDSL in Htyped. apply andb_prop in Htyped as [Hconds Hcombine].
  destruct (combine_keyword_Throw _ Hcombine) as [Hwhy Hinvalid].
  unfold translateNewDSL, filter_fault, elements.
  destruct (lookup_prop "conditions" filter) as [| | | | |conds|];
    try discriminate Hconds.
  destruct (translateNewDSL_loop_Throw conds [] [] (1 + offset) Hconds)
    as [Hwhy_loop Hfault].
  cbn [iterate].
  destruct (combine_keyword filter) as [combine|e]; cbn [bind].
  - destruct (invalid_combine filter).
    { destruct Hinvalid as [_ Hinvalid]. by destruct (Hinvalid eq_refl). }
    rewrite orb_false_r.
    destruct (translateNewDSL_loop _ _ _ _) as [[sqlFragments ps]|e]; cbn [bind].
    + destruct (existsb condition_fault conds).
      { destruct Hfault as [_ Hfault]. by destruct (Hfault eq_refl). }
      by destruct (length sqlFragments =? 0)%nat; accepted.
    + destruct Hfault as [Hfault _]. rewrite Hfault by eauto.
      split; [by intros e' [= <-]; apply Hwhy_loop|]. split; [done|by eauto].
  - destruct Hinvalid as [Hinvalid _]. rewrite Hinvalid by eauto.
    rewrite orb_true_r.
    split; [by intros e' [= <-]; apply Hwhy|]. split; [done|by eauto].
Qed.

(** C2, amended. A filter of the shape of the DSL (an array of conditions
    under [conditions], a string under [combine] when there is one) makes
    [translateFilter] raise nothing but a [FilterValidationError], whose
    status code is 400, and it raises one exactly when the object has a key
    besides [conditions] and [combine], or [combine] is neither ["and"] nor
    ["or"], or some condition has an unknown field, an operator outside the
    allowed set of its field, an alias that differs from the alias of its
    field, an [in] / [notIn] whose list of values is absent or empty, a
    [between] / [notBetween] without [range.low] or [range.high], or an
    unknown operator. Any object that has the key [conditions] and a key of
    the legacy format is rejected with a [FilterValidationError]. *)
Theorem translateFilter_rejects :
  (forall filter offset legacyAlias,
     is_FilterDSL filter = true ->
     (forall e,
        translateFilter (Some filter) offset legacyAlias = Throw e ->
        (exists why, e = FilterValidationError why)
        /\ statusCode e = Some 400%N)
     /\ ((exists why,
            translateFilter (Some filter) offset legacyAlias
            = Throw (FilterValidationError why))
         <-> mixes_legacy_key filter || filter_fault filter = true))
  /\ (forall filter offset legacyAlias,
        mixes_legacy_key filter = true ->
        translateFilter (Some filter) offset legacyAlias
        = Throw (FilterValidationError MixedFormat)).
Proof.
  split.
  - intros filter offset legacyAlias Htyped.
    destruct (translateFilter_DSL_Throw filter offset legacyAlias Htyped)
      as [Hwhy Hfault].
    split.
    + intros e He. destruct (Hwhy e He) as [why ->]. by eauto.
    + rewrite <- Hfault. split.
      * intros [why Hthrow]. by eauto.
      * intros [e He]. destruct (Hwhy e He) as [why ->]. by eauto.
  - intros filter offset legacyAlias Hmixes.
    unfold mixes_legacy_key in Hmixes.
    destruct (has_conditions filter) eqn:Hconditions; [|discriminate Hmixes].
    unfold translateFilter.
    rewrite Hconditions, (extraKeys_mixes _ Hconditions).
    unfold mixes_legacy_key. by rewrite Hconditions, Hmixes.
Qed.

Lemma translateFilter_rejects_witness :
  is_FilterDSL wrong_alias_filter = true
  /\ (exists why,
        translateFilter (Some wrong_alias_filter) 0 "c"
        = Throw (FilterValidationError why))
  /\ mixes_legacy_key mixed_filter = true
  /\ translateFilter (Some mixed_filter) 0 "c"
     = Throw (FilterValidationError MixedFormat).
Proof.
  split; [reflexivity|]. split.
  - apply (proj1 translateFilter_rejects wrong_alias_filter 0%N "c");
      reflexivity.
  - split; [reflexivity|].
    apply (proj2 translateFilter_rejects mixed_filter 0%N "c"). reflexivity.
Defined.

(** C2 as it is worded fails on an [in] condition that has no [values] at
    all: none of the listed reasons holds (the filter has no empty list of
    values), and [translateFilter] raises a [FilterValidationError]. *)
Lemma translateFilter_rejects_absent_values :
  is_FilterDSL absent_values_filter = true
  /\ mixes_legacy_key absent_values_filter = false
  /\ listed_fault absent_values_filter = false
  /\ translateFilter (Some absent_values_filter) 0 "c"
     = Throw (FilterValidationError ValuesRequired).
Proof. repeat split; by vm_compute. Qed.

(** * Further properties of the helpers *)

(** ** toSnakeCase *)

Lemma no_upper_app s1 s2 :
  no_upper (s1 +:+ s2) = no_upper s1 && no_upper s2.
Proof.
  induction s1 as [|c s1 IH]; [reflexivity|].
  change (negb (is_upper c) && no_upper (s1 +:+ s2)
          = negb (is_upper c) && no_upper s1 && no_upper s2).
  by rewrite IH, andb_assoc.
Qed.

Lemma lower_ascii_letter c :
  is_upper c = true ->
  is_upper (lower_ascii c) = false /\ Ascii.eqb (lower_ascii c) "_" = false.
Proof. destruct c as [[] [] [] [] [] [] [] []]; by vm_compute. Qed.

Lemma no_upper_cons c s :
  no_upper (String c s) = negb (is_upper c) && no_upper s.
Proof. reflexivity. Qed.

Lemma snake_from_no_upper offset s : no_upper (snake_from offset s) = true.
Proof.
  revert offset. induction s as [|c s IH]; intros offset; [reflexivity|].
  cbn [snake_from]. rewrite no_upper_app, IH, andb_true_r.
  destruct (is_upper c) eqn:Hc.
  - destruct (lower_ascii_letter c Hc) as [Hlower _].
    destruct (offset =? 0)%nat.
    + by rewrite no_upper_cons, Hlower.
    + change ("_" +:+ String (lower_ascii c) "")
        with (String "_" (String (lower_ascii c) "")).
      by rewrite !no_upper_cons, Hlower.
  - by rewrite no_upper_cons, Hc.
Qed.

Lemma snake_from_unchanged offset s :
  no_upper s = true -> snake_from offset s = s.
Proof.
  revert offset. induction s as [|c s IH]; intros offset Hs; [reflexivity|].
  change (negb (is_upper c) && no_upper s = true) in Hs.
  apply andb_prop in Hs as [Hc Hs]. apply negb_true_iff in Hc.
  cbn [snake_from]. rewrite Hc, (IH _ Hs). reflexivity.
Qed.

(** X1. What [toSnakeCase] returns has no capital letter left, and
    converting it again changes nothing. *)
Theorem toSnakeCase_idempotent str converted :
  toSnakeCase str = Ok converted ->
  no_upper converted = true
  /\ toSnakeCase (JStr converted) = Ok converted.
Proof.
  destruct str as [| | | |s| |]; try discriminate. intros [= <-].
  split; [apply snake_from_no_upper|].
  cbn [toSnakeCase]. f_equal. apply snake_from_unchanged, snake_from_no_upper.
Qed.

Lemma toSnakeCase_idempotent_witness :
  toSnakeCase (JStr "ChunkIndexURL") = Ok "chunk_index_u_r_l"
  /\ no_upper "chunk_index_u_r_l" = true
  /\ toSnakeCase (JStr "chunk_index_u_r_l") = Ok "chunk_index_u_r_l".
Proof.
  split; [reflexivity|].
  exact (toSnakeCase_idempotent (JStr "ChunkIndexURL") "chunk_index_u_r_l" eq_refl).
Defined.

(** X2. [toSnakeCase] puts no underscore in front: the result starts with
    one exactly when the key does, so a capital first letter is lower-cased
    and nothing more. *)
Theorem toSnakeCase_leading_underscore str converted :
  toSnakeCase str = Ok converted ->
  exists s, str = JStr s
            /\ leading_underscore converted = leading_underscore s.
Proof.
  destruct str as [| | | |s| |]; try discriminate. intros [= <-].
  exists s. split; [reflexivity|].
  destruct s as [|c s]; [reflexivity|]. cbn [snake_from Nat.eqb].
  destruct (is_upper c) eqn:Hc; [|reflexivity].
  destruct (lower_ascii_letter c Hc) as [_ Hlower].
  change (Ascii.eqb (lower_ascii c) "_" = Ascii.eqb c "_"). rewrite Hlower.
  destruct c as [[] [] [] [] [] [] [] []]; try reflexivity; discriminate Hc.
Qed.

Lemma toSnakeCase_leading_underscore_witness :
  toSnakeCase (JStr "ChunkIndex") = Ok "chunk_index"
  /\ exists s, JStr "ChunkIndex" = JStr s
               /\ leading_underscore "chunk_index" = leading_underscore s.
Proof.
  split; [reflexivity|].
  exact (toSnakeCase_leading_underscore (JStr "ChunkIndex") "chunk_index" eq_refl).
Defined.

(** ** toAllowedColumn *)

Lemma ALLOWED_FILTER_COLUMNS_pattern column :
  column ∈ ALLOWED_FILTER_COLUMNS -> column_pattern column = true.
Proof.
  unfold ALLOWED_FILTER_COLUMNS. rewrite elem_of_list_to_set.
  revert column. apply Forall_forall. apply (bool_decide_unpack _).
  vm_compute. exact I.
Qed.

Lemma toAllowedColumn_string s :
  toAllowedColumn (JStr s)
  = if bool_decide (snake_from 0 s ∈ ALLOWED_FILTER_COLUMNS)
    then Ok (snake_from 0 s)
    else Throw UnsupportedFilterKey.
Proof.
  unfold toAllowedColumn. cbn [toSnakeCase bind].
  destruct (bool_decide_reflect (snake_from 0 s ∈ ALLOWED_FILTER_COLUMNS))
    as [Hin|_].
  - by rewrite (ALLOWED_FILTER_COLUMNS_pattern _ Hin).
  - cbn [negb]. by rewrite orb_true_r.
Qed.

(** X3. [toAllowedColumn] accepts a key exactly when its snake-case form is
    one of the eight allow-listed columns and returns that column: the test
    against the pattern never rejects an allow-listed column. Any other
    text is an unsupported filter key (a plain [Error], without status
    code), and a key that is not a text makes [replace] fail with a
    [TypeError]. *)
Theorem toAllowedColumn_decides key :
  toAllowedColumn key
  = match key with
    | JStr s =>
        if bool_decide (snake_from 0 s ∈ ALLOWED_FILTER_COLUMNS)
        then Ok (snake_from 0 s)
        else Throw UnsupportedFilterKey
    | _ => Throw TypeError
    end.
Proof.
  destruct key as [| | | |s| |]; try reflexivity.
  apply toAllowedColumn_string.
Qed.

(** ** The legacy path on plain keys *)

Lemma plain_keys_no_conditions filter :
  plain_keys filter = true -> has_conditions filter = false.
Proof.
  unfold plain_keys, has_conditions.
  induction filter as [|[key value] filter IH]; [reflexivity|].
  cbn [map forallb existsb fst]. intros H.
  apply andb_prop in H as [Hkey Hrest]. apply andb_prop in Hkey as [_ Hkey].
  apply negb_true_iff in Hkey. by rewrite Hkey, (IH Hrest).
Qed.

Lemma translateLegacy_entries_plain legacyAlias entries cs ps i :
  plain_keys entries = true ->
  translateLegacy_entries legacyAlias entries (cs, ps, i)
  = if forallb (fun k => bool_decide (snake_from 0 k ∈ ALLOWED_FILTER_COLUMNS))
               (map fst entries)
    then Ok (cs ++ imap (fun n k => legacy_condition legacyAlias (snake_from 0 k)
                                      false (i + N.of_nat n)%N)
                        (map fst entries),
             ps ++ map snd entries,
             (i + N.of_nat (length entries))%N)
    else Throw UnsupportedFilterKey.
Proof.
  revert cs ps i.
  induction entries as [|[key value] entries IH]; intros cs ps i Hplain.
  - cbn. by rewrite !app_nil_r, N.add_0_r.
  - unfold plain_keys in Hplain. cbn [map forallb fst] in Hplain.
    apply andb_prop in Hplain as [Hkey Hrest].
    apply andb_prop in Hkey as [Hkey _]. apply andb_prop in Hkey as [Hmust Hmust_not].
    apply negb_true_iff in Hmust, Hmust_not.
    cbn [translateLegacy_entries map forallb fst snd imap length].
    rewrite Hmust, Hmust_not, toAllowedColumn_string.
    destruct (bool_decide (snake_from 0 key ∈ ALLOWED_FILTER_COLUMNS));
      [|reflexivity].
    cbn [bind andb]. rewrite (IH _ _ _ Hrest).
    destruct (forallb _ (map fst entries)); [|reflexivity].
    rewrite <- !app_assoc, N.add_0_r. cbn [app].
    replace (i + 1 + N.of_nat (length entries))%N
      with (i + N.of_nat (S (length entries)))%N by lia.
    do 5 f_equal. apply imap_ext. intros n k _. cbn. f_equal. lia.
Qed.

(** X4. A legacy filter of plain keys (no [must], [must_not] or
    [conditions]) compiles exactly when the snake-case form of every key is
    an allow-listed column, and fails with the unsupported-key error
    otherwise. The fragment then has one condition per key, in the order of
    the keys, the [n]-th of them (from 0) with the placeholder
    [$(offset + 1 + n)], and the parameters are the values in that order. *)
Theorem translateFilter_plain_keys filter offset legacyAlias :
  plain_keys filter = true ->
  translateFilter (Some filter) offset legacyAlias
  = if forallb (fun k => bool_decide (snake_from 0 k ∈ ALLOWED_FILTER_COLUMNS))
               (map fst filter)
    then Ok (and_conditions
               (imap (fun n k => legacy_condition legacyAlias (snake_from 0 k)
                                   false (offset + 1 + N.of_nat n)%N)
                     (map fst filter)),
             map snd filter)
    else Throw UnsupportedFilterKey.
Proof.
  intros Hplain. unfold translateFilter, translateLegacyFilter.
  rewrite (plain_keys_no_conditions _ Hplain).
  rewrite (translateLegacy_entries_plain _ _ _ _ _ Hplain).
  destruct (forallb _ (map fst filter)); [|reflexivity].
  cbn [bind app]. unfold and_conditions. rewrite (N.add_comm 1 offset).
  reflexivity.
Qed.

Lemma translateFilter_plain_keys_witness :
  translateFilter (Some [("repoId", JStr "r1"); ("path", JStr "src/")]) 3 "c"
  = Ok (" AND c.repo_id = $4 AND c.path LIKE $5 || '%'", [JStr "r1"; JStr "src/"])
  /\ translateFilter (Some [("repoId", JStr "r1"); ("source", JStr "doc")]) 3 "c"
     = Throw UnsupportedFilterKey.
Proof.
  split.
  - exact (translateFilter_plain_keys
             [("repoId", JStr "r1"); ("path", JStr "src/")] 3%N "c" eq_refl).
  - exact (translateFilter_plain_keys
             [("repoId", JStr "r1"); ("source", JStr "doc")] 3%N "c" eq_refl).
Defined.

(** ** Which exception each path raises *)

Lemma toAllowedColumn_Throw key e :
  toAllowedColumn key = Throw e -> e = TypeError \/ e = UnsupportedFilterKey.
Proof.
  unfold toAllowedColumn. destruct key as [| | | |s| |]; cbn [toSnakeCase bind];
    try (intros [= <-]; by left).
  destruct (negb _ || negb _); [|discriminate]. intros [= <-]. by right.
Qed.

Lemma iterate_Throw v e : iterate v = Throw e -> e = TypeError.
Proof. destruct v; cbn; congruence. Qed.

Lemma translateLegacy_matches_Throw legacyAlias negated conds st e :
  translateLegacy_matches legacyAlias negated conds st = Throw e ->
  e = TypeError \/ e = UnsupportedFilterKey.
Proof.
  revert st. induction conds as [|cond conds IH]; intros [[cs ps] i] H;
    cbn [translateLegacy_matches] in H; [discriminate H|].
  destruct (nullish cond); [injection H as <-; by left|].
  destruct (toAllowedColumn _) as [column|e'] eqn:Hcolumn; cbn [bind] in H.
  - destruct (nullish (prop cond "match")); [injection H as <-; by left|].
    exact (IH _ H).
  - injection H as <-. exact (toAllowedColumn_Throw _ _ Hcolumn).
Qed.

Lemma translateLegacy_entries_Throw legacyAlias entries st e :
  translateLegacy_entries legacyAlias entries st = Throw e ->
  e = TypeError \/ e = UnsupportedFilterKey.
Proof.
  revert st. induction entries as [|[key value] entries IH]; intros [[cs ps] i] H;
    cbn [translateLegacy_entries] in H; [discriminate H|].
  destruct (String.eqb key "must");
    [|destruct (String.eqb key "must_not")].
  1,2: destruct (iterate value) as [elems|e'] eqn:Helems; cbn [bind] in H;
       [|injection H as <-; left; exact (iterate_Throw _ _ Helems)];
       destruct (translateLegacy_matches _ _ _ _) as [st'|e'] eqn:Hmatches;
       cbn [bind] in H;
       [exact (IH _ H)
       |injection H as <-; exact (translateLegacy_matches_Throw _ _ _ _ _ Hmatches)].
  destruct (toAllowedColumn _) as [column|e'] eqn:Hcolumn; cbn [bind] in H.
  - exact (IH _ H).
  - injection H as <-. exact (toAllowedColumn_Throw _ _ Hcolumn).
Qed.

Lemma translateCondition_Throw_class cond i e :
  translateCondition cond i = Throw e ->
  e = TypeError \/ exists why, e = FilterValidationError why.
Proof.
  unfold translateCondition, compare1, membership.
  repeat case_match; intros [= <-]; eauto.
Qed.

Lemma translateNewDSL_loop_Throw_class conds sqlFragments ps i e :
  translateNewDSL_loop conds sqlFragments ps i = Throw e ->
  e = TypeError \/ exists why, e = FilterValidationError why.
Proof.
  revert sqlFragments ps i.
  induction conds as [|cond conds IH]; intros sqlFragments ps i H;
    cbn [translateNewDSL_loop] in H; [discriminate H|].
  destruct (translateCondition cond i) as [[tsql tparams tnext]|e'] eqn:Ht;
    cbn [bind] in H.
  - exact (IH _ _ _ H).
  - injection H as <-. exact (translateCondition_Throw_class _ _ _ Ht).
Qed.

(** X5. The two formats fail differently. A filter without the key
    [conditions] never raises a [FilterValidationError]: what it raises (an
    unsupported key, or a [TypeError] on a malformed [must] list) carries no
    status code 400. A filter with the key [conditions] never raises the
    unsupported-key error: it raises a [FilterValidationError] or, on a
    malformed [conditions] value, a [TypeError]. *)
Theorem translateFilter_exception_classes filter offset legacyAlias e :
  translateFilter (Some filter) offset legacyAlias = Throw e ->
  if has_conditions filter
  then e = TypeError \/ exists why, e = FilterValidationError why
  else (e = TypeError \/ e = UnsupportedFilterKey) /\ statusCode e = None.
Proof.
  unfold translateFilter. destruct (has_conditions filter).
  - destruct (0 <? _)%nat; [intros [= <-]; by eauto|].
    unfold translateNewDSL, combine_keyword.
    destruct (negb _ && negb _); cbn [bind]; [intros [= <-]; by eauto|].
    destruct (if nullish _ then _ else _); cbn [bind];
      try (intros [= <-]; by eauto).
    destruct (iterate _) as [conds|e'] eqn:Hconds; cbn [bind].
    + destruct (translateNewDSL_loop _ _ _ _) as [[sqlFragments ps]|e'] eqn:Hloop;
        cbn [bind].
      * by destruct (length sqlFragments =? 0)%nat.
      * intros [= <-]. exact (translateNewDSL_loop_Throw_class _ _ _ _ _ Hloop).
    + intros [= <-]. left. exact (iterate_Throw _ _ Hconds).
  - unfold translateLegacyFilter.
    destruct (translateLegacy_entries _ _ _) as [[[cs ps] i]|e'] eqn:Hentries;
      cbn [bind]; [discriminate|].
    intros [= <-].
    destruct (translateLegacy_entries_Throw _ _ _ _ Hentries) as [-> | ->];
      by auto.
Qed.

Lemma translateFilter_exception_classes_witness :
  translateFilter (Some [("source", JStr "doc")]) 0 "c" = Throw UnsupportedFilterKey
  /\ statusCode UnsupportedFilterKey = None
  /\ translateFilter (Some [("conditions", JNum 1)]) 0 "c" = Throw TypeError.
Proof.
  split; [reflexivity|]. split.
  - exact (proj2 (translateFilter_exception_classes
                    [("source", JStr "doc")] 0%N "c" UnsupportedFilterKey eq_refl)).
  - destruct (translateFilter_exception_classes
                [("conditions", JNum 1)] 0%N "c" TypeError eq_refl);
      reflexivity.
Defined.

(** ** The fragment as a suffix of a WHERE clause *)

Lemma translateLegacy_matches_count legacyAlias negated conds cs ps i cs' ps' i' :
  translateLegacy_matches legacyAlias negated conds (cs, ps, i) = Ok (cs', ps', i') ->
  length cs' = (length cs + length conds)%nat
  /\ length ps' = (length ps + length conds)%nat
  /\ i' = (i + N.of_nat (length conds))%N.
Proof.
  revert cs ps i.
  induction conds as [|cond conds IH]; intros cs ps i H;
    cbn [translateLegacy_matches] in H.
  - injection H as <- <- <-. cbn. lia.
  - destruct (nullish cond); [discriminate H|].
    destruct (toAllowedColumn _) as [column|]; [|discriminate H].
    cbn [bind] in H. destruct (nullish (prop cond "match")); [discriminate H|].
    apply IH in H as (-> & -> & ->). rewrite !length_app. cbn. lia.
Qed.

Lemma translateLegacy_entries_count legacyAlias entries cs ps i cs' ps' i' :
  translateLegacy_entries legacyAlias entries (cs, ps, i) = Ok (cs', ps', i') ->
  exists n,
    length cs' = (length cs + n)%nat
    /\ length ps' = (length ps + n)%nat
    /\ i' = (i + N.of_nat n)%N.
Proof.
  revert cs ps i.
  induction entries as [|[key value] entries IH]; intros cs ps i H;
    cbn [translateLegacy_entries] in H.
  - injection H as <- <- <-. exists 0%nat. cbn. lia.
  - destruct (String.eqb key "must");
      [|destruct (String.eqb key "must_not")].
    1,2: destruct (iterate value) as [elems|]; [|discriminate H];
         cbn [bind] in H;
         destruct (translateLegacy_matches _ _ _ _) as [[[cs1 ps1] i1]|] eqn:H1;
           [|discriminate H];
         cbn [bind] in H;
         apply translateLegacy_matches_count in H1 as (Hcs1 & Hps1 & ->);
         apply IH in H as (n & -> & -> & ->);
         exists (length elems + n)%nat; rewrite Hcs1, Hps1; lia.
    destruct (toAllowedColumn _) as [column|]; [|discriminate H].
    cbn [bind] in H. apply IH in H as (n & -> & -> & ->).
    exists (S n). rewrite !length_app. cbn. lia.
Qed.

(** X6. A fragment is empty or starts with [" AND "], so that it can be put
    straight after a WHERE condition; and an empty fragment always comes
    with an empty parameter list, on both paths and for an absent filter. *)
Theorem translateFilter_fragment_form filter offset legacyAlias sqlText ps :
  translateFilter filter offset legacyAlias = Ok (sqlText, ps) ->
  (sqlText = "" /\ ps = [])
  \/ (exists rest, sqlText = " AND " +:+ rest).
Proof.
  destruct filter as [filter|]; [|intros [= <- <-]; by left].
  unfold translateFilter. destruct (has_conditions filter).
  - destruct (0 <? _)%nat; [discriminate|]. intros H.
    apply translateNewDSL_Ok in H as (combine & ts & _ & _ & -> & ->).
    destruct ts as [|t ts]; [by left|right; by eauto].
  - intros H.
    apply translateLegacyFilter_Ok in H as (conditions & i & Hentries & ->).
    apply translateLegacy_entries_count in Hentries as (n & Hcs & Hps & _).
    cbn [length] in Hcs, Hps. rewrite Hcs.
    destruct n as [|n]; [left|right; by eauto].
    split; [reflexivity|]. by destruct ps.
Qed.

Lemma translateFilter_fragment_form_witness :
  translateFilter (Some [("must", JArr [])]) 2 "c" = Ok ("", [])
  /\ (("" = "" /\ @nil jsval = [])
      \/ (exists rest, "" = " AND " +:+ rest)).
Proof.
  split; [reflexivity|].
  exact (translateFilter_fragment_form (Some [("must", JArr [])]) 2%N "c" "" []
           eq_refl).
Defined.

(** ** The offset and the alias do not decide the outcome *)

Lemma translateCondition_any_index cond i1 i2 :
  match translateCondition cond i1, translateCondition cond i2 with
  | Ok t1, Ok t2 => t1.(params) = t2.(params)
  | Throw e1, Throw e2 => e1 = e2
  | _, _ => False
  end.
Proof.
  unfold translateCondition, compare1, membership.
  repeat case_match; simplify_eq; done.
Qed.

Lemma translateNewDSL_loop_any_index conds sqlFragments1 sqlFragments2 ps i1 i2 :
  length sqlFragments1 = length sqlFragments2 ->
  match translateNewDSL_loop conds sqlFragments1 ps i1,
        translateNewDSL_loop conds sqlFragments2 ps i2 with
  | Ok (fragments1, ps1), Ok (fragments2, ps2) =>
      ps1 = ps2 /\ length fragments1 = length fragments2
  | Throw e1, Throw e2 => e1 = e2
  | _, _ => False
  end.
Proof.
  revert sqlFragments1 sqlFragments2 ps i1 i2.
  induction conds as [|cond conds IH];
    intros sqlFragments1 sqlFragments2 ps i1 i2 Hlen;
    cbn [translateNewDSL_loop]; [done|].
  pose proof (translateCondition_any_index cond i1 i2) as Hcond.
  destruct (translateCondition cond i1) as [[sql1 params1 next1]|e1],
           (translateCondition cond i2) as [[sql2 params2 next2]|e2];
    cbn [bind params] in *; try done.
  subst params2. apply IH. rewrite !length_app. cbn. lia.
Qed.

Lemma translateLegacy_matches_any_index alias1 alias2 negated conds
    cs1 cs2 ps i1 i2 :
  match translateLegacy_matches alias1 negated conds (cs1, ps, i1),
        translateLegacy_matches alias2 negated conds (cs2, ps, i2) with
  | Ok (_, ps1, _), Ok (_, ps2, _) => ps1 = ps2
  | Throw e1, Throw e2 => e1 = e2
  | _, _ => False
  end.
Proof.
  revert cs1 cs2 ps i1 i2.
  induction conds as [|cond conds IH]; intros cs1 cs2 ps i1 i2;
    cbn [translateLegacy_matches]; [done|].
  destruct (nullish cond); [done|].
  destruct (toAllowedColumn _) as [column|e]; cbn [bind]; [|done].
  destruct (nullish (prop cond "match")); [done|]. apply IH.
Qed.

Lemma translateLegacy_entries_any_index alias1 alias2 entries cs1 cs2 ps i1 i2 :
  match translateLegacy_entries alias1 entries (cs1, ps, i1),
        translateLegacy_entries alias2 entries (cs2, ps, i2) with
  | Ok (_, ps1, _), Ok (_, ps2, _) => ps1 = ps2
  | Throw e1, Throw e2 => e1 = e2
  | _, _ => False
  end.
Proof.
  revert cs1 cs2 ps i1 i2.
  induction entries as [|[key value] entries IH]; intros cs1 cs2 ps i1 i2;
    cbn [translateLegacy_entries]; [done|].
  destruct (String.eqb key "must");
    [|destruct (String.eqb key "must_not")].
  1,2: destruct (iterate value) as [elems|e]; cbn [bind]; [|done];
       match goal with
       | |- context [translateLegacy_matches _ ?negated _ _] =>
           pose proof (translateLegacy_matches_any_index alias1 alias2 negated
                         elems cs1 cs2 ps i1 i2) as Hmatches
       end;
       destruct (translateLegacy_matches alias1 _ _ _) as [[[cs1' ps1'] i1']|e1],
                (translateLegacy_matches alias2 _ _ _) as [[[cs2' ps2'] i2']|e2];
       cbn [bind]; try done; subst ps2'; apply IH.
  destruct (toAllowedColumn _) as [column|e]; cbn [bind]; [|done]. apply IH.
Qed.

(** X7. Neither the offset nor the alias decides whether a filter compiles:
    with any two offsets and aliases, [translateFilter] either returns the
    same parameter list both times or raises the same exception both
    times. Only the SQL text depends on them. *)
Theorem translateFilter_any_offset filter offset1 alias1 offset2 alias2 :
  same_outcome (translateFilter filter offset1 alias1)
               (translateFilter filter offset2 alias2).
Proof.
  destruct filter as [filter|]; [|done].
  unfold translateFilter. destruct (has_conditions filter).
  - destruct (0 <? _)%nat; [done|]. unfold translateNewDSL.
    destruct (combine_keyword filter) as [combine|e]; cbn [bind]; [|done].
    destruct (iterate _) as [conds|e]; cbn [bind]; [|done].
    pose proof (translateNewDSL_loop_any_index conds [] [] []
                  (1 + offset1) (1 + offset2) eq_refl) as Hloop.
    destruct (translateNewDSL_loop conds [] [] (1 + offset1))
      as [[fragments1 ps1]|e1],
      (translateNewDSL_loop conds [] [] (1 + offset2))
      as [[fragments2 ps2]|e2]; cbn [bind]; try done.
    destruct Hloop as [-> ->].
    by destruct (length fragments2 =? 0)%nat.
  - unfold translateLegacyFilter.
    pose proof (translateLegacy_entries_any_index alias1 alias2 filter [] [] []
                  (1 + offset1) (1 + offset2)) as Hentries.
    destruct (translateLegacy_entries alias1 _ _) as [[[cs1 ps1] i1]|e1],
             (translateLegacy_entries alias2 _ _) as [[[cs2 ps2] i2]|e2];
      cbn [bind]; done.
Qed.

(** ** The legacy format next to the DSL *)

(** The names of [FIELD_DEFS]. *)
Lemma FIELD_DEFS_names name :
  is_Some (FIELD_DEFS !! name) ->
  name ∈ ["chunkIndex"; "docType"; "repoId"; "repoUrl"; "path"; "lang";
          "itemUrl"; "enrichmentStatus"; "createdAt"; "ingestedAt";
          "updatedAt"; "lastSeen"; "mimeType"].
Proof.
  intros [fieldDef Hfield]. revert name fieldDef Hfield.
  change (map_Forall
            (fun name _ =>
               name ∈ ["chunkIndex"; "docType"; "repoId"; "repoUrl"; "path";
                       "lang"; "itemUrl"; "enrichmentStatus"; "createdAt";
                       "ingestedAt"; "updatedAt"; "lastSeen"; "mimeType"])
            FIELD_DEFS).
  apply (bool_decide_unpack _). vm_compute. exact I.
Qed.

(** Runs through the thirteen field names. *)
Ltac each_field Hname :=
  repeat (apply elem_of_cons in Hname as [->|Hname]);
  [..|by apply elem_of_nil in Hname].

(** X8. The legacy format and the DSL agree. For a DSL field whose name the
    legacy path accepts as a key, the legacy filter [{key: value}]
    compiles, with the alias [c], to the same fragment and parameters as
    the DSL filter with the one condition [{field: key, op: "eq", value}],
    at every offset ([path] being a prefix match in both). *)
Theorem translateFilter_legacy_key_as_eq key column value offset :
  is_Some (FIELD_DEFS !! key) ->
  toAllowedColumn (JStr key) = Ok column ->
  translateFilter (Some [(key, value)]) offset "c"
  = translateFilter (Some (dsl_of_condition key "eq" value)) offset "c".
Proof.
  intros Hname Hcolumn. apply FIELD_DEFS_names in Hname.
  each_field Hname; vm_compute in Hcolumn; try discriminate Hcolumn;
    reflexivity.
Qed.

Lemma translateFilter_legacy_key_as_eq_witness :
  translateFilter (Some [("docType", JStr "code")]) 3 "c"
  = Ok (" AND c.doc_type = $4", [JStr "code"])
  /\ translateFilter (Some (dsl_of_condition "docType" "eq" (JStr "code"))) 3 "c"
     = Ok (" AND c.doc_type = $4", [JStr "code"]).
Proof.
  split; [reflexivity|].
  rewrite <- (translateFilter_legacy_key_as_eq "docType" "doc_type" (JStr "code")
                3%N (ex_intro _ _ eq_refl) eq_refl).
  reflexivity.
Defined.

(** X9. A [must] element [{key, match: {value}}] with a value that is
    neither [null] nor [undefined] compiles like the DSL condition
    [{field: key, op: "eq", value}], and a [must_not] element like the
    condition with [op: "ne"], for every DSL field whose name the legacy
    path accepts, with the alias [c] and at every offset. *)
Theorem translateFilter_must_as_eq_ne key column value offset :
  is_Some (FIELD_DEFS !! key) ->
  toAllowedColumn (JStr key) = Ok column ->
  nullish value = false ->
  translateFilter (Some (legacy_match "must" key value)) offset "c"
  = translateFilter (Some (dsl_of_condition key "eq" value)) offset "c"
  /\ translateFilter (Some (legacy_match "must_not" key value)) offset "c"
     = translateFilter (Some (dsl_of_condition key "ne" value)) offset "c".
Proof.
  intros Hname Hcolumn Hvalue. apply FIELD_DEFS_names in Hname.
  each_field Hname; vm_compute in Hcolumn; try discriminate Hcolumn;
    destruct value; try discriminate Hvalue; split; reflexivity.
Qed.

Lemma translateFilter_must_as_eq_ne_witness :
  translateFilter (Some (legacy_match "must_not" "path" (JStr "src/"))) 0 "c"
  = Ok (" AND c.path NOT LIKE $1 || '%'", [JStr "src/"])
  /\ translateFilter (Some (dsl_of_condition "path" "ne" (JStr "src/"))) 0 "c"
     = Ok (" AND c.path NOT LIKE $1 || '%'", [JStr "src/"]).
Proof.
  split; [reflexivity|].
  rewrite <- (proj2 (translateFilter_must_as_eq_ne "path" "path" (JStr "src/")
                       0%N (ex_intro _ _ eq_refl) eq_refl eq_refl)).
  reflexivity.
Defined.

(** ** Placeholders and parameters line up *)





(** ** Placeholders and parameters line up on the legacy path *)

Lemma imap_snoc {A B} (f : nat -> A -> B) (l : list A) (x : A) :
  imap f (l ++ [x]) = imap f l ++ [f (length l) x].
Proof.
  rewrite imap_app. cbn. by rewrite Nat.add_0_r.
Qed.

Lemma toAllowedColumn_any key :
  toAllowedColumn key
  = match key with
    | JStr s =>
        if bool_decide (snake_from 0 s ∈ ALLOWED_FILTER_COLUMNS)
        then Ok (snake_from 0 s)
        else Throw UnsupportedFilterKey
    | _ => Throw TypeError
    end.
Proof.
  destruct key as [| | | |s| |]; try reflexivity.
  apply toAllowedColumn_string.
Qed.

Lemma translateLegacy_matches_form legacyAlias negated conds first specs ps i0 cs' ps' i' :
  translateLegacy_matches legacyAlias negated conds
    (imap (legacy_condition_at legacyAlias first) specs, ps, i0) = Ok (cs', ps', i') ->
  i0 = (first + N.of_nat (length specs))%N ->
  length ps = length specs ->
  exists specs',
    cs' = imap (legacy_condition_at legacyAlias first) specs'
    /\ i' = (first + N.of_nat (length specs'))%N
    /\ length ps' = length specs'
    /\ (Forall (fun spec => fst spec ∈ ALLOWED_FILTER_COLUMNS) specs ->
        Forall (fun spec => fst spec ∈ ALLOWED_FILTER_COLUMNS) specs').
Proof.
  revert specs ps i0.
  induction conds as [|cond conds IH]; intros specs ps i0 H Hi Hps;
    cbn [translateLegacy_matches] in H.
  - injection H as <- <- <-. by exists specs.
  - destruct (nullish cond); [discriminate H|].
    rewrite toAllowedColumn_any in H.
    destruct (prop cond "key") as [| | | |key| |]; try discriminate H.
    destruct (bool_decide_reflect (snake_from 0 key ∈ ALLOWED_FILTER_COLUMNS))
      as [Hin|_]; [|discriminate H].
    cbn [bind] in H. destruct (nullish (prop cond "match")); [discriminate H|].
    subst i0.
    change (legacy_condition legacyAlias (snake_from 0 key) negated
              (first + N.of_nat (length specs)))
      with (legacy_condition_at legacyAlias first (length specs)
              (snake_from 0 key, negated)) in H.
    rewrite <- imap_snoc in H.
    apply IH in H as (specs' & -> & -> & Hps' & Hallowed).
    + exists specs'. repeat split; try done. intros Hspecs. apply Hallowed.
      apply Forall_app. split; [exact Hspecs|]. by constructor.
    + rewrite length_app. cbn. lia.
    + rewrite !length_app. cbn. lia.
Qed.

Lemma translateLegacy_entries_form legacyAlias entries first specs ps i0 cs' ps' i' :
  translateLegacy_entries legacyAlias entries
    (imap (legacy_condition_at legacyAlias first) specs, ps, i0) = Ok (cs', ps', i') ->
  i0 = (first + N.of_nat (length specs))%N ->
  length ps = length specs ->
  exists specs',
    cs' = imap (legacy_condition_at legacyAlias first) specs'
    /\ i' = (first + N.of_nat (length specs'))%N
    /\ length ps' = length specs'
    /\ (Forall (fun spec => fst spec ∈ ALLOWED_FILTER_COLUMNS) specs ->
        Forall (fun spec => fst spec ∈ ALLOWED_FILTER_COLUMNS) specs').
Proof.
  revert specs ps i0.
  induction entries as [|[key value] entries IH]; intros specs ps i0 H Hi Hps;
    cbn [translateLegacy_entries] in H.
  - injection H as <- <- <-. by exists specs.
  - destruct (String.eqb key "must");
      [|destruct (String.eqb key "must_not")].
    1,2: destruct (iterate value) as [elems|]; [|discriminate H];
         cbn [bind] in H;
         destruct (translateLegacy_matches _ _ _ _) as [[[cs1 ps1] i1]|] eqn:H1;
           [|discriminate H];
         cbn [bind] in H;
         apply translateLegacy_matches_form in H1
           as (specs1 & -> & Hi1 & Hps1 & Hallowed1); [|done..];
         apply IH in H as (specs' & -> & -> & Hps' & Hallowed); [|done..];
         exists specs'; repeat split; try done; by auto.
    rewrite toAllowedColumn_string in H.
    destruct (bool_decide_reflect (snake_from 0 key ∈ ALLOWED_FILTER_COLUMNS))
      as [Hin|_]; [|discriminate H].
    cbn [bind] in H. subst i0.
    change (legacy_condition legacyAlias (snake_from 0 key) false
              (first + N.of_nat (length specs)))
      with (legacy_condition_at legacyAlias first (length specs)
              (snake_from 0 key, false)) in H.
    rewrite <- imap_snoc in H.
    apply IH in H as (specs' & -> & -> & Hps' & Hallowed).
    + exists specs'. repeat split; try done. intros Hspecs. apply Hallowed.
      apply Forall_app. split; [exact Hspecs|]. by constructor.
    + rewrite length_app. cbn. lia.
    + rewrite !length_app. cbn. lia.
Qed.

(** X11. Placeholders and parameters line up on the legacy path. A legacy
    filter that compiles gives one condition per parameter, over columns of
    the allow-list only; the conditions are joined by [" AND "] after a
    leading [" AND "], and the condition at position [n] (from 0, across
    plain keys, [must] and [must_not] in the order of the filter) uses the
    placeholder [$(offset + 1 + n)]. *)
Theorem translateFilter_legacy_alignment filter offset legacyAlias sqlText ps :
  has_conditions filter = false ->
  translateFilter (Some filter) offset legacyAlias = Ok (sqlText, ps) ->
  exists specs : list (string * bool),
    sqlText = and_conditions
                (imap (legacy_condition_at legacyAlias (offset + 1)) specs)
    /\ length ps = length specs
    /\ Forall (fun spec => fst spec ∈ ALLOWED_FILTER_COLUMNS) specs.
Proof.
  intros Hconditions H. unfold translateFilter in H. rewrite Hconditions in H.
  apply translateLegacyFilter_Ok in H as (conditions & i & Hentries & ->).
  rewrite (N.add_comm 1 offset) in Hentries.
  apply (translateLegacy_entries_form legacyAlias filter (offset + 1) [] [])
    in Hentries as (specs & -> & _ & Hps & Hallowed);
    [|cbn; lia|reflexivity].
  exists specs. split; [reflexivity|]. split; [exact Hps|].
  apply Hallowed. constructor.
Qed.

Lemma translateFilter_legacy_alignment_witness :
  translateFilter (Some plain_legacy_filter) 4 "chunks"
  = Ok (" AND chunks.doc_type = $5 AND chunks.path NOT LIKE $6 || '%'",
        [JStr "code"; JStr "src/"])
  /\ exists specs : list (string * bool),
       " AND chunks.doc_type = $5 AND chunks.path NOT LIKE $6 || '%'"
       = and_conditions (imap (legacy_condition_at "chunks" (4 + 1)) specs)
       /\ length [JStr "code"; JStr "src/"] = length specs
       /\ Forall (fun spec => fst spec ∈ ALLOWED_FILTER_COLUMNS) specs.
Proof.
  split; [reflexivity|].
  exact (translateFilter_legacy_alignment plain_legacy_filter 4%N "chunks" _ _
           eq_refl eq_refl).
Defined.

(** ** The [default] branch of the [switch] *)







